(** * 3D model previews: GLB loading, cloning and material replacement

    A shallow embedding of [CharacterModel3D.tsx] and [WeaponModel3D.tsx].
    Both files exist in two variants: the one headed "GLB with safe material
    replacement" (function [sanitizeMaterials], module [SafeReplacement])
    and the one headed "GLB with auto-centering" (an inline traversal inside
    the [useMemo] of the GLB component, module [AutoCentering]). The
    character and the weapon file of a variant differ in their tables, their
    fallback meshes and their rotation rate and, in the safe-replacement
    variant, in the function that clones the scene ([SkeletonUtils.clone]
    for characters, [Object3D.clone] for weapons). *)

From Stdlib Require Import ZArith QArith Qround Bool List String Lia PrimFloat.
From stdpp Require Import base list strings.
Import ListNotations.

Set Warnings "-register-all,-inexact-float".

Local Open Scope string_scope.
Local Open Scope list_scope.

(** ** JavaScript values

    The components read the fields of materials typed [any], so every field
    is an arbitrary JavaScript value. Finite numbers are rationals (the code
    below never does arithmetic on them, it only stores and compares them);
    [NaN] is a value of its own. A [THREE.Color] is held by value (the code
    only ever copies colours); textures and other objects are held by
    identity. *)

Inductive ColorVal : Type :=
| Hex (rgb : Z)            (* the colour a hexadecimal literal denotes *)
| Styled (style : string). (* the colour [Color.setStyle style] produces *)

Inductive JsVal : Type :=
| JUndefined
| JNull
| JBool (b : bool)
| JNum (q : Q)
| JNaN
| JStr (s : string)
| JColor (c : ColorVal)     (* a THREE.Color instance *)
| JTexture (t : nat)        (* a THREE.Texture instance, by identity *)
| JFunction (name : string) (* a built-in function object *)
| JObject (o : nat).        (* any other object, by identity *)

(** ToBoolean *)
Definition truthy (v : JsVal) : bool :=
  match v with
  | JUndefined | JNull | JNaN => false
  | JBool b => b
  | JNum q => negb (Qeq_bool q 0)
  | JStr s => negb (String.eqb s "")
  | JColor _ | JTexture _ | JFunction _ | JObject _ => true
  end.

(** [v != null] *)
Definition not_nullish (v : JsVal) : bool :=
  match v with
  | JUndefined | JNull => false
  | _ => true
  end.

(** [a || b] *)
Definition js_or (a b : JsVal) : JsVal := if truthy a then a else b.

(** [a ?? b] *)
Definition js_coalesce (a b : JsVal) : JsVal := if not_nullish a then a else b.

(** Exceptions. *)
Inductive JsError : Type :=
| TypeError (msg : string).

(** ** The part of three.js the components call *)

Definition FrontSide : JsVal := JNum 0.
Definition DoubleSide : JsVal := JNum 2.

(** A material object: the properties the components read or set. A property
    the object does not have reads as [JUndefined]. *)
Record Material : Type := mkMaterial {
  m_type : string;
  m_color : JsVal;
  m_map : JsVal;
  m_normalMap : JsVal;
  m_roughness : JsVal;
  m_metalness : JsVal;
  m_side : JsVal;
  m_transparent : JsVal;
  m_opacity : JsVal
}.

(** The parameter object handed to [new THREE.MeshStandardMaterial({...})];
    a key that is left out reads as [JUndefined]. *)
Record Parameters : Type := mkParameters {
  p_color : JsVal;
  p_map : JsVal;
  p_normalMap : JsVal;
  p_roughness : JsVal;
  p_metalness : JsVal;
  p_side : JsVal;
  p_transparent : JsVal;
  p_opacity : JsVal
}.

(** [Color.set(value)]: a colour is copied, a number goes through [setHex]
    (floor, then the low 24 bits), a string through [setStyle]; anything else
    leaves the colour as it was. *)
Definition Color_set (cur : ColorVal) (v : JsVal) : ColorVal :=
  match v with
  | JColor c => c
  | JNum q => Hex (Z.land (Qfloor q) 16777215)
  | JNaN => Hex 0
  | JStr s => Styled s
  | _ => cur
  end.

(** [Material.setValues]: a key whose value is [undefined] is skipped, any
    other value is stored as it is; no value is checked or clamped. *)
Definition setValue (cur new : JsVal) : JsVal :=
  match new with
  | JUndefined => cur
  | _ => new
  end.

(** [new THREE.MeshStandardMaterial(p)]: the library's defaults (white,
    no textures, roughness 1, metalness 0, front side, opaque) overridden by
    the parameters given. *)
Definition MeshStandardMaterial (p : Parameters) : Material :=
  {| m_type := "MeshStandardMaterial";
     m_color := JColor (Color_set (Hex 16777215) (p_color p));
     m_map := setValue JNull (p_map p);
     m_normalMap := setValue JNull (p_normalMap p);
     m_roughness := setValue (JNum 1) (p_roughness p);
     m_metalness := setValue (JNum 0) (p_metalness p);
     m_side := setValue FrontSide (p_side p);
     m_transparent := setValue (JBool false) (p_transparent p);
     m_opacity := setValue (JNum 1) (p_opacity p) |}.

(** [v.clone()]: colours and textures have the method; calling it on a
    value without it is a TypeError. The copy of a texture is a texture; no
    caller below keeps it, so its identity is not tracked. *)
Definition call_clone (v : JsVal) : JsError + JsVal :=
  match v with
  | JColor c => inr (JColor c)
  | JTexture t => inr (JTexture t)
  | _ => inl (TypeError "clone is not a function")
  end.


(** ** The store of material objects

    Materials are mutable objects that several scene graphs may reference, so
    they live in a store and scene graphs hold their addresses. Allocation
    appends: the address of a new material is the length of the store. *)

Definition Heap : Type := list Material.

(** The value of a material slot or of an element of a material array:
    nothing ([undefined] or [null]) or a reference to a material object. *)
Inductive MatRef : Type :=
| RNone
| RMat (l : nat).

Definition deref (h : Heap) (r : MatRef) : option Material :=
  match r with
  | RNone => None
  | RMat l => h !! l
  end.

(** [child.material]: one value, or an array of them. *)
Inductive MatSlot : Type :=
| SlotOne (r : MatRef)
| SlotArray (rs : list MatRef).

(** Computations that read and extend the store and may throw. *)
Inductive Outcome (A : Type) : Type :=
| Normal (a : A) (h : Heap)
| Throw (e : JsError) (h : Heap).
Arguments Normal {A} a h.
Arguments Throw {A} e h.

Definition M (A : Type) : Type := Heap -> Outcome A.

Definition ret {A} (a : A) : M A := fun h => Normal a h.

Definition bind {A B} (c : M A) (k : A -> M B) : M B :=
  fun h => match c h with
           | Normal a h' => k a h'
           | Throw e h' => Throw e h'
           end.

Definition throw {A} (e : JsError) : M A := fun h => Throw e h.

(** [try { body } catch { handler }] *)
Definition try_catch {A} (body : M A) (handler : JsError -> M A) : M A :=
  fun h => match body h with
           | Normal a h' => Normal a h'
           | Throw e h' => handler e h'
           end.

Definition lift {A} (r : JsError + A) : M A :=
  match r with
  | inl e => throw e
  | inr a => ret a
  end.

(** Allocation of a new material object. *)
Definition alloc (m : Material) : M MatRef :=
  fun h => Normal (RMat (length h)) (h ++ [m]).

(** Reading from the store. *)
Definition reads {A} (f : Heap -> A) : M A :=
  fun h => Normal (f h) h.

(** Reading the object behind a slot value. *)
Definition read (r : MatRef) : M (option Material) :=
  reads (fun h => deref h r).

Notation "'let*' x ':=' c1 'in' c2" := (bind c1 (fun x => c2))
  (at level 10, x name, c1 at level 100, c2 at level 200).

(** [Array.prototype.map] with a callback that runs in [M], left to right. *)
Fixpoint array_map {A B} (f : A -> M B) (l : list A) : M (list B) :=
  match l with
  | [] => ret []
  | a :: l' =>
      let* b := f a in
      let* bs := array_map f l' in
      ret (b :: bs)
  end.

(** ** Scene graphs *)

(** A [SkinnedMesh] is bound to a skeleton, an object of its own that lists
    the bones; the bones are nodes of a scene graph, held here by their ids
    (an entry that is [undefined] is [None]). A skeleton object has no number
    in three.js: one the loader made is named after the skin of the file it
    was made for, one [SkeletonUtils.clone] made after the cloned mesh it was
    made for. The components never change the bones of a bound skeleton, so a
    node holds them next to the identity of the skeleton object. *)
Inductive SkeletonRef : Type :=
| Parsed (skin : nat)
| ClonedFor (mesh : nat).

Record Skeleton : Type := mkSkeleton {
  skeleton_object : SkeletonRef;
  bones : list (option nat)
}.

Record NodeData : Type := mkNode {
  id : nat;              (* Object3D.id, unique per object *)
  name : string;
  transform : list Z;    (* position, rotation, scale *)
  geometry : option nat; (* the geometry buffer, by identity *)
  isMesh : bool;
  material : MatSlot;
  skeleton : option Skeleton  (* of a SkinnedMesh: what it is bound to *)
}.

Inductive Object3D : Type :=
| Obj (d : NodeData) (children : list Object3D).

Definition set_material (d : NodeData) (s : MatSlot) : NodeData :=
  {| id := id d; name := name d; transform := transform d;
     geometry := geometry d; isMesh := isMesh d; material := s;
     skeleton := skeleton d |}.

Definition set_id (d : NodeData) (i : nat) : NodeData :=
  {| id := i; name := name d; transform := transform d;
     geometry := geometry d; isMesh := isMesh d; material := material d;
     skeleton := skeleton d |}.

Definition set_skeleton (d : NodeData) (s : option Skeleton) : NodeData :=
  {| id := id d; name := name d; transform := transform d;
     geometry := geometry d; isMesh := isMesh d; material := material d;
     skeleton := s |}.

(** [obj.traverse(callback)]: the callback on the object itself, then the
    traversal of each child in order. The callback updates the node it is
    given. *)
Fixpoint traverse (callback : NodeData -> M NodeData) (o : Object3D) : M Object3D :=
  match o with
  | Obj d cs =>
      let* d' := callback d in
      let* cs' := (fix children (l : list Object3D) : M (list Object3D) :=
                     match l with
                     | [] => ret []
                     | c :: l' =>
                         let* c' := traverse callback c in
                         let* l'' := children l' in
                         ret (c' :: l'')
                     end) cs in
      ret (Obj d' cs')
  end.

(** [Object3D.clone(recursive)], [recursive] defaulting to [true]: a new
    object for every node, with the next free ids in traversal order; name,
    transform and geometry are copied, and so is the material slot: a single
    material is shared by reference, an array is copied with [slice()], its
    elements shared by reference. [SkinnedMesh.copy] assigns
    [this.skeleton = source.skeleton]: the copy of a skinned mesh is bound to
    the skeleton object of its source, and through it to the source's
    bones. *)
Fixpoint clone (o : Object3D) (next : nat) : Object3D * nat :=
  match o with
  | Obj d cs =>
      let '(cs', n) :=
        (fix children (l : list Object3D) (k : nat) : list Object3D * nat :=
           match l with
           | [] => ([], k)
           | c :: l' =>
               let '(c', k') := clone c k in
               let '(l'', k'') := children l' k' in
               (c' :: l'', k'')
           end) cs (S next) in
      (Obj (set_id d next) cs', n)
  end.

Section Object3D_induction.
Variable P : Object3D -> Prop.
Hypothesis P_Obj : forall d cs, Forall P cs -> P (Obj d cs).

Fixpoint Object3D_ind' (o : Object3D) : P o :=
  match o with
  | Obj d cs =>
      P_Obj d cs
        ((fix all (l : list Object3D) : Forall P l :=
            match l with
            | [] => List.Forall_nil P
            | c :: l' => List.Forall_cons P c l' (Object3D_ind' c) (all l')
            end) cs)
  end.
End Object3D_induction.

(** The nodes of a graph, in traversal order. *)
Fixpoint nodes (o : Object3D) : list NodeData :=
  match o with
  | Obj d cs => d :: concat (List.map nodes cs)
  end.

(** Every node satisfies [W]. *)
Inductive all_nodes (W : NodeData -> Prop) : Object3D -> Prop :=
| all_nodes_Obj d cs :
    W d -> Forall (all_nodes W) cs -> all_nodes W (Obj d cs).

(** Two graphs have the same hierarchy, and nodes at the same position are
    related by [R]. *)
Inductive tree_rel (R : NodeData -> NodeData -> Prop) : Object3D -> Object3D -> Prop :=
| tree_rel_Obj d d' cs cs' :
    R d d' -> Forall2 (tree_rel R) cs cs' -> tree_rel R (Obj d cs) (Obj d' cs').

(** The traversal of a list of children, as [traverse] unfolds it. *)
Definition traverse_children (callback : NodeData -> M NodeData) :
    list Object3D -> M (list Object3D) :=
  fix children (l : list Object3D) : M (list Object3D) :=
    match l with
    | [] => ret []
    | c :: l' =>
        let* c' := traverse callback c in
        let* l'' := children l' in
        ret (c' :: l'')
    end.

Definition clone_children : list Object3D -> nat -> list Object3D * nat :=
  fix children (l : list Object3D) (k : nat) : list Object3D * nat :=
    match l with
    | [] => ([], k)
    | c :: l' =>
        let '(c', k') := clone c k in
        let '(l'', k'') := children l' k' in
        (c' :: l'', k'')
    end.

(** [obj.traverse(callback)] for a callback that only updates the node it is
    given and touches no store. *)
Fixpoint map_nodes (callback : NodeData -> NodeData) (o : Object3D) : Object3D :=
  match o with
  | Obj d cs => Obj (callback d) (List.map (map_nodes callback) cs)
  end.

(** [cloneLookup.get(bone)]: the [Map] from the nodes of the source to their
    copies, keyed here by the id of the source node. *)
Fixpoint cloneLookup_get (cloneLookup : list (nat * nat)) (bone : nat) : option nat :=
  match cloneLookup with
  | [] => None
  | (s, c) :: rest => if Nat.eqb bone s then Some c else cloneLookup_get rest bone
  end.

(** The callback of the second traversal of [SkeletonUtils.clone]: a node
    that is no skinned mesh is left alone; a skinned mesh gets
    [sourceMesh.skeleton.clone()], a new skeleton object, whose bones are
    then replaced by the copies of the source's bones. (The cloned mesh
    still references the skeleton of its source at this point, so the
    source's bones are read from it.) *)
Definition rebind (cloneLookup : list (nat * nat)) (node : NodeData) : NodeData :=
  match skeleton node with
  | None => node
  | Some sourceSkeleton =>
      set_skeleton node
        (Some {| skeleton_object := ClonedFor (id node);
                 bones := List.map (fun bone => match bone with
                                                | Some b => cloneLookup_get cloneLookup b
                                                | None => None
                                                end) (bones sourceSkeleton) |})
  end.

(** [SkeletonUtils.clone(source)]: [source.clone()], then a parallel
    traversal of the source and its copy that records which node is the copy
    of which (the copy has the hierarchy of the source, so the traversal
    pairs the nodes in traversal order), then the traversal of the copy that
    re-binds every skinned mesh. *)
Definition SkeletonUtils_clone (source : Object3D) (next : nat) : Object3D * nat :=
  let '(c, n) := clone source next in
  let cloneLookup := combine (List.map id (nodes source)) (List.map id (nodes c)) in
  (map_nodes (rebind cloneLookup) c, n).

(** The material objects a slot references. *)
Definition ref_locs (r : MatRef) : list nat :=
  match r with
  | RNone => []
  | RMat l => [l]
  end.

Definition slot_refs (s : MatSlot) : list nat :=
  match s with
  | SlotOne r => ref_locs r
  | SlotArray rs => concat (List.map ref_locs rs)
  end.

(** The material objects referenced by any node, and by the mesh nodes. *)
Definition materials_of (o : Object3D) : list nat :=
  concat (List.map (fun d => slot_refs (material d)) (nodes o)).

Definition mesh_materials (o : Object3D) : list nat :=
  concat (List.map (fun d => slot_refs (material d)) (List.filter isMesh (nodes o))).

Definition ids_of (o : Object3D) : list nat := List.map id (nodes o).

(** A scene graph lives in a store when every material it references has
    been allocated there. *)
Definition refs_below (n : nat) (d : NodeData) : Prop :=
  Forall (fun l => l < n) (slot_refs (material d)).

Definition well_formed (h : Heap) (o : Object3D) : Prop :=
  all_nodes (refs_below (length h)) o.

(** What cloning does to one node: a new id out of [[lo, hi)], every other
    field (the material slot included) as it was. *)
Definition node_cloned (lo hi : nat) (d d' : NodeData) : Prop :=
  exists i, d' = set_id d i /\ lo <= i < hi.

(** What [SkeletonUtils.clone] does to one node: a new id, and for a skinned
    mesh the re-binding. *)
Definition node_rebound (cloneLookup : list (nat * nat)) (lo hi : nat)
    (d d' : NodeData) : Prop :=
  exists i, d' = rebind cloneLookup (set_id d i) /\ lo <= i < hi.

(** What either way of cloning does to one node: a new id out of [[lo, hi)],
    possibly another skeleton, every other field as it was. *)
Definition node_copied (lo hi : nat) (d d' : NodeData) : Prop :=
  exists i sk, d' = set_skeleton (set_id d i) sk /\ lo <= i < hi.

(** The two files: [CharacterModel3D.tsx] and [WeaponModel3D.tsx]. *)
Inductive File : Type :=
| Character
| Weapon.

(** Executable form of [well_formed]. *)
Definition stored (h : Heap) (o : Object3D) : bool :=
  forallb (fun l => Nat.ltb l (length h)) (materials_of o).

(** A node differs from another at most by its material slot, and not at
    all when it is no mesh. *)
Definition only_material_changed (d d' : NodeData) : Prop :=
  (exists s, d' = set_material d s) /\ (isMesh d = false -> d' = d).

(** The world a component renders in: the material store and the counter
    the library draws object ids from. *)
Record World : Type := mkWorld {
  heap : Heap;
  nextId : nat
}.

(** [0x888888] *)
Definition gray : Z := 8947848.

(** [mat && mat.f], for a slot value already looked up in the store: the
    field of the object, and a falsy value when there is no object. *)
Definition field (f : Material -> JsVal) (mat : option Material) : JsVal :=
  match mat with
  | Some m => f m
  | None => JUndefined
  end.

(** ** Material descriptors

    The descriptor of the data model: a colour, optional base and normal
    textures, roughness, metalness and opacity in [[0,1]], double sided, a
    boolean transparency flag. *)

Definition in_unit (v : JsVal) : bool :=
  match v with
  | JNum q => Qle_bool 0 q && Qle_bool q 1
  | _ => false
  end.

Definition in_range (m : Material) : bool :=
  in_unit (m_roughness m) && in_unit (m_metalness m) && in_unit (m_opacity m).

Definition is_color (v : JsVal) : bool :=
  match v with JColor _ => true | _ => false end.

Definition is_texture (v : JsVal) : bool :=
  match v with JTexture _ => true | _ => false end.

Definition texture_or_null (v : JsVal) : bool :=
  match v with JTexture _ | JNull => true | _ => false end.

Definition is_bool (v : JsVal) : bool :=
  match v with JBool _ => true | _ => false end.

Definition is_double_sided (v : JsVal) : bool :=
  match v with JNum q => Qeq_bool q 2 | _ => false end.

Definition valid_descriptor (m : Material) : bool :=
  is_color (m_color m) && texture_or_null (m_map m) &&
  texture_or_null (m_normalMap m) && in_range m &&
  is_double_sided (m_side m) && is_bool (m_transparent m).

(** The neutral default: gray, no texture, opaque, double sided. *)
Definition neutral_gray (m : Material) : bool :=
  match m_color m with
  | JColor (Hex c) => Z.eqb c gray
  | _ => false
  end &&
  match m_map m, m_normalMap m, m_transparent m with
  | JNull, JNull, JBool false => true
  | _, _, _ => false
  end &&
  is_double_sided (m_side m) && in_range m.

(** The elements of a slot: the single value, or the array's elements. *)
Definition slot_elements (s : MatSlot) : list MatRef :=
  match s with
  | SlotOne r => [r]
  | SlotArray rs => rs
  end.

(** The slot elements of all meshes of a graph, in traversal order. *)
Definition surface_elements (o : Object3D) : list MatRef :=
  concat (List.map (fun d => slot_elements (material d)) (List.filter isMesh (nodes o))).

(** Every slot element of every mesh of [o] references a material that
    exists in [h] and satisfies [ok]. *)
Definition surfaces_all (ok : Material -> bool) (h : Heap) (o : Object3D) : bool :=
  forallb (fun r => match deref h r with
                    | Some m => ok m
                    | None => false
                    end) (surface_elements o).

(** A source value that is missing or already in [[0,1]]. *)
Definition absent_or_unit (v : JsVal) : bool :=
  negb (not_nullish v) || in_unit v.

Definition source_in_range (m : Material) : bool :=
  absent_or_unit (m_roughness m) && absent_or_unit (m_metalness m) &&
  absent_or_unit (m_opacity m).

(** Every material a mesh of [o] references satisfies [ok], where it
    exists. *)
Definition sources_all (ok : Material -> bool) (h : Heap) (o : Object3D) : bool :=
  forallb (fun l => match h !! l with
                    | Some m => ok m
                    | None => true
                    end) (mesh_materials o).

(** The slot holds an array of exactly [n] valid descriptors. *)
Definition array_of_valid (h : Heap) (n : nat) (s : MatSlot) : bool :=
  match s with
  | SlotArray rs =>
      Nat.eqb (length rs) n &&
      forallb (fun r => match deref h r with
                        | Some m => valid_descriptor m
                        | None => false
                        end) rs
  | SlotOne _ => false
  end.

(** A source element from which the rewrite gives a valid descriptor:
    nothing at all, or an object whose textures are textures (or missing),
    whose numbers are in range (or missing) and whose transparency flag is
    a boolean (or missing). *)
Definition falsy_or (p : JsVal -> bool) (v : JsVal) : bool :=
  negb (truthy v) || p v.

Definition source_valid (mat : option Material) : bool :=
  match mat with
  | None => true
  | Some m =>
      falsy_or is_texture (m_map m) && falsy_or is_texture (m_normalMap m) &&
      source_in_range m && falsy_or is_bool (m_transparent m)
  end.

(** ** The variant "GLB with safe material replacement" *)

Module SafeReplacement.

(** The parameter object built inside the [try] of [replaceMat]. Only the
    first entry can throw ([mat.color.clone()]). *)
Definition replaceMat_parameters (mat : option Material) : JsError + Parameters :=
  match (if truthy (field m_color mat)
         then call_clone (field m_color mat)
         else inr (JColor (Hex gray))) with
  | inl e => inl e
  | inr c =>
      inr {| p_color := c;
             p_map := js_or (field m_map mat) JNull;
             p_normalMap := js_or (field m_normalMap mat) JNull;
             p_roughness := if not_nullish (field m_roughness mat)
                            then field m_roughness mat else JNum (1 # 2);
             p_metalness := if not_nullish (field m_metalness mat)
                            then field m_metalness mat else JNum (3 # 10);
             p_side := DoubleSide;
             p_transparent := js_or (field m_transparent mat) (JBool false);
             p_opacity := if not_nullish (field m_opacity mat)
                          then field m_opacity mat else JNum 1 |}
  end.

(** The parameters of the material built in the [catch] of [replaceMat]. *)
Definition catch_parameters : Parameters :=
  {| p_color := JNum (inject_Z gray); p_map := JUndefined;
     p_normalMap := JUndefined; p_roughness := JNum (1 # 2);
     p_metalness := JNum (3 # 10); p_side := DoubleSide;
     p_transparent := JUndefined; p_opacity := JUndefined |}.

(** The parameters of the material given to a mesh that has none, and of the
    one assigned in the outer [catch]. *)
Definition bare_parameters : Parameters :=
  {| p_color := JNum (inject_Z gray); p_map := JUndefined;
     p_normalMap := JUndefined; p_roughness := JUndefined;
     p_metalness := JUndefined; p_side := DoubleSide;
     p_transparent := JUndefined; p_opacity := JUndefined |}.

Definition replaceMat (mat : MatRef) : M MatRef :=
  try_catch
    (let* m := read mat in
     let* p := lift (replaceMat_parameters m) in
     alloc (MeshStandardMaterial p))
    (fun _ => alloc (MeshStandardMaterial catch_parameters)).

(** The callback [sanitizeMaterials] hands to [traverse]. *)
Definition sanitize_child (child : NodeData) : M NodeData :=
  if negb (isMesh child) then ret child
  else
    try_catch
      (match material child with
       | SlotArray rs =>
           let* rs' := array_map replaceMat rs in
           ret (set_material child (SlotArray rs'))
       | SlotOne (RMat l) =>
           let* r := replaceMat (RMat l) in
           ret (set_material child (SlotOne r))
       | SlotOne RNone =>
           let* r := alloc (MeshStandardMaterial bare_parameters) in
           ret (set_material child (SlotOne r))
       end)
      (fun _ =>
         let* r := alloc (MeshStandardMaterial bare_parameters) in
         ret (set_material child (SlotOne r))).

Definition sanitizeMaterials (obj : Object3D) : M Object3D :=
  traverse sanitize_child obj.

(** The [useMemo] of [GLBCharacter] and [GLBWeapon]: clone the cached scene,
    sanitize the clone, and give [null] when either throws. [GLBCharacter]
    clones with [SkeletonUtils.clone(gltf.scene)], [GLBWeapon] with
    [gltf.scene.clone(true)]. *)
Definition cloned (file : File) (scene : Object3D) (w : World) :
    option Object3D * World :=
  let '(c, n) := match file with
                 | Character => SkeletonUtils_clone scene (nextId w)
                 | Weapon => clone scene (nextId w)
                 end in
  match sanitizeMaterials c (heap w) with
  | Normal c' h' => (Some c', {| heap := h'; nextId := n |})
  | Throw _ h' => (None, {| heap := h'; nextId := n |})
  end.

(** The same on [gltf.scene] as the loader gives it: [undefined] for a file
    without a scene. The clone then throws a TypeError, inside the [try], and
    the [catch] gives [null]. *)
Definition useMemo_cloned (file : File) (gltf_scene : option Object3D) (w : World) :
    option Object3D * World :=
  match gltf_scene with
  | Some scene => cloned file scene w
  | None => (None, w)
  end.

(** The material [replaceMat] builds for a slot value, once the [try] and
    the [catch] are resolved. *)
Definition replaceMat_value (mat : option Material) : Material :=
  match replaceMat_parameters mat with
  | inr p => MeshStandardMaterial p
  | inl _ => MeshStandardMaterial catch_parameters
  end.

(** [r'] references a material allocated after [h0] that is, in [h'], the
    rewrite of what [src] referenced in [h0]. *)
Definition rewritten (h0 h' : Heap) (src r' : MatRef) : Prop :=
  exists l', r' = RMat l' /\ length h0 <= l' /\
             h' !! l' = Some (replaceMat_value (deref h0 src)).

(** What the pass does to one node: [d] before, in store [h0]; [d'] after,
    in store [h']. *)
Definition node_sanitized (h0 h' : Heap) (d d' : NodeData) : Prop :=
  if isMesh d then
    match material d with
    | SlotArray rs =>
        exists rs', d' = set_material d (SlotArray rs') /\
                    Forall2 (rewritten h0 h') rs rs'
    | SlotOne (RMat l) =>
        exists r', d' = set_material d (SlotOne r') /\
                   rewritten h0 h' (RMat l) r'
    | SlotOne RNone =>
        exists l', d' = set_material d (SlotOne (RMat l')) /\
                   length h0 <= l' /\
                   h' !! l' = Some (MeshStandardMaterial bare_parameters)
    end
  else d' = d.

(** A node [d] of the cached scene and the node [d'] at the same place of
    an instance made from it in world [w], which that leaves as [w']. *)
Definition node_instance (w w' : World) (d d' : NodeData) : Prop :=
  exists c, node_copied (nextId w) (nextId w') d c /\
            node_sanitized (heap w) (heap w') c d'.

(** The materials a sanitized mesh holds, in slot order, for a slot that
    held [s] in store [h0]. *)
Definition expected_slot (h0 : Heap) (s : MatSlot) : list Material :=
  match s with
  | SlotOne RNone => [MeshStandardMaterial bare_parameters]
  | SlotOne (RMat l) => [replaceMat_value (h0 !! l)]
  | SlotArray rs => List.map (fun r => replaceMat_value (deref h0 r)) rs
  end.



End SafeReplacement.

(** ** The variant "GLB with auto-centering" *)

Module AutoCentering.

(** [child.material] as a condition. An array is an object, hence truthy. *)
Definition slot_truthy (s : MatSlot) : bool :=
  match s with
  | SlotOne RNone => false
  | SlotOne (RMat _) => true
  | SlotArray _ => true
  end.

(** [oldMat.f] where [oldMat] is the whole slot: the field of the material
    object, or the property of that name of the array. *)
Definition old_field (h : Heap) (oldMat : MatSlot)
    (f : Material -> JsVal) (of_array : JsVal) : JsVal :=
  match oldMat with
  | SlotOne r => field f (deref h r)
  | SlotArray _ => of_array
  end.

Definition rebuilt_parameters (h : Heap) (oldMat : MatSlot) : Parameters :=
  {| p_color := js_or (old_field h oldMat m_color JUndefined) (JColor (Hex gray));
     p_map := js_or (old_field h oldMat m_map (JFunction "Array.prototype.map")) JNull;
     p_normalMap := js_or (old_field h oldMat m_normalMap JUndefined) JNull;
     p_roughness := js_coalesce (old_field h oldMat m_roughness JUndefined) (JNum (1 # 2));
     p_metalness := js_coalesce (old_field h oldMat m_metalness JUndefined) (JNum (3 # 10));
     p_side := DoubleSide;
     p_transparent := JUndefined;
     p_opacity := JUndefined |}.

(** The callback of the inline [c.traverse(...)]. *)
Definition rebuild_child (child : NodeData) : M NodeData :=
  if isMesh child && slot_truthy (material child) then
    let oldMat := material child in
    let* p := reads (fun h => rebuilt_parameters h oldMat) in
    let* r := alloc (MeshStandardMaterial p) in
    ret (set_material child (SlotOne r))
  else ret child.

(** The [useMemo] of [GLBCharacter] and [GLBWeapon], both of which clone
    with [scene.clone()]. Nothing catches here: [None] stands for an
    exception that leaves the component. *)
Definition cloned (scene : Object3D) (w : World) : option Object3D * World :=
  let '(c, n) := clone scene (nextId w) in
  match traverse rebuild_child c (heap w) with
  | Normal c' h' => (Some c', {| heap := h'; nextId := n |})
  | Throw _ h' => (None, {| heap := h'; nextId := n |})
  end.

(** The same on the [scene] of the loader's result: [scene.clone()] on
    [undefined] is a TypeError, which leaves the component. *)
Definition useMemo_cloned (scene : option Object3D) (w : World) :
    option Object3D * World :=
  match scene with
  | Some scene => cloned scene w
  | None => (None, w)
  end.

(** What the pass does to one node. *)
Definition node_rebuilt (h0 h' : Heap) (d d' : NodeData) : Prop :=
  if isMesh d && slot_truthy (material d) then
    exists l', d' = set_material d (SlotOne (RMat l')) /\
               length h0 <= l' /\
               h' !! l' = Some (MeshStandardMaterial (rebuilt_parameters h0 (material d)))
  else d' = d.

Definition node_instance (w w' : World) (d d' : NodeData) : Prop :=
  exists c, node_copied (nextId w) (nextId w') d c /\
            node_rebuilt (heap w) (heap w') c d'.

End AutoCentering.

(** ** Instances

    The scene graph a preview shows, in either variant. *)

Inductive Variant : Type :=
| SafeVariant
| AutoCenteringVariant.

Definition instantiate (v : Variant) (file : File) :
    Object3D -> World -> option Object3D * World :=
  match v with
  | SafeVariant => SafeReplacement.cloned file
  | AutoCenteringVariant => AutoCentering.cloned
  end.

(** The same on the scene as the loader gives it. *)
Definition useMemo (v : Variant) (file : File) :
    option Object3D -> World -> option Object3D * World :=
  match v with
  | SafeVariant => SafeReplacement.useMemo_cloned file
  | AutoCenteringVariant => AutoCentering.useMemo_cloned
  end.


(** The skeleton objects the skinned meshes of a graph are bound to, and the
    nodes these skeletons list as bones. *)
Definition skeletons_of (o : Object3D) : list SkeletonRef :=
  omap (fun d => skeleton_object <$> skeleton d) (nodes o).

Definition bones_of (o : Object3D) : list nat :=
  concat (List.map (fun d => match skeleton d with
                             | Some sk => omap (fun b => b) (bones sk)
                             | None => []
                             end) (nodes o)).



(** Writing [m] into any of the materials [mine] changes none of the
    materials [others]. *)
Definition independent (h : Heap) (mine others : list nat) : Prop :=
  forall l m l', In l mine -> In l' others -> <[l := m]> h !! l' = h !! l'.



(** ** The preview components

    [CharacterModel3D] and [WeaponModel3D], their error boundary and the GLB
    component they mount. *)

(** The identifier tables: the own properties of the two object literals. *)
Definition CHARACTER_GLB_MAP : list (string * string) :=
  [ ("ghost_riley", "/Models/Characters/snake_eyes__fortnite_item_shop_skin.glb");
    ("nova_prime", "/Models/Characters/fortnite_oblivion_skin.glb");
    ("viper_snake", "/Models/Characters/torin__fortnite_chapter_2_season_8_bp_skin.glb");
    ("shadow_exe", "/Models/Characters/the_omega_tier_100_skin_fortnite_3d_model.glb");
    ("midas_gold", "/Models/Characters/midas__fortnite_100_tier_s12_bp_skin.glb");
    ("marigold", "/Models/Characters/marigold_fortnite_skin__female_midas.glb");
    ("glow_phantom", "/Models/Characters/glow__fortnite_outfit.glb") ].

Definition WEAPON_GLB_MAP : list (string * string) :=
  [ ("k416", "/Models/weapons/rifle__m4a1-s_weapon_model_cs2.glb");
    ("ak_death", "/Models/weapons/ak-47disassembly_of_weapons.glb");
    ("awm_x", "/Models/weapons/rifle__awp_weapon_model_cs2.glb");
    ("vector_neon", "/Models/weapons/animated_pp-19-01.glb");
    ("s12_breacher", "/Models/weapons/shotgun_mr-133_animated.glb");
    ("desert_eagle", "/Models/weapons/pistol__desert_eagle_weapon_model_cs2.glb");
    ("glock_17", "/Models/weapons/glock_17_-_fps_weapon_animations_pack_v.1.glb");
    ("m4a4_thunder", "/Models/weapons/rifle__m4a4_weapon_model_cs2.glb");
    ("sniper_elite", "/Models/weapons/sniper.glb");
    ("usp_shadow", "/Models/weapons/pistol__usp-s_weapon_model_cs2.glb");
    ("awp_black", "/Models/weapons/rifle__awp_black_version_weapon_model_cs2.glb");
    ("cz100", "/Models/weapons/cz100__realtime_weapon.glb");
    ("cheytac", "/Models/weapons/cheytac_m300_mcmillan_stock.glb");
    ("t77", "/Models/weapons/t77_handgun.glb");
    ("colt_m1911", "/Models/weapons/colt_pistol_m1911a1_game_asset.glb") ].

(** The entry of a table for an id, if the table has one. *)
Fixpoint entry (table : list (string * string)) (k : string) : option string :=
  match table with
  | [] => None
  | (k', p) :: rest => if String.eqb k k' then Some p else entry rest k
  end.

(** What an object literal inherits: the properties of [Object.prototype]. *)
Definition Object_prototype : list (string * JsVal) :=
  [ ("constructor", JFunction "Object");
    ("__defineGetter__", JFunction "__defineGetter__");
    ("__defineSetter__", JFunction "__defineSetter__");
    ("hasOwnProperty", JFunction "hasOwnProperty");
    ("__lookupGetter__", JFunction "__lookupGetter__");
    ("__lookupSetter__", JFunction "__lookupSetter__");
    ("isPrototypeOf", JFunction "isPrototypeOf");
    ("propertyIsEnumerable", JFunction "propertyIsEnumerable");
    ("toString", JFunction "toString");
    ("valueOf", JFunction "valueOf");
    ("__proto__", JObject 0);
    ("toLocaleString", JFunction "toLocaleString") ].

Fixpoint inherited (proto : list (string * JsVal)) (k : string) : option JsVal :=
  match proto with
  | [] => None
  | (k', v) :: rest => if String.eqb k k' then Some v else inherited rest k
  end.

(** [k in table]: own properties first, then the prototype chain. *)
Definition js_in (k : string) (table : list (string * string)) : bool :=
  match entry table k with
  | Some _ => true
  | None => match inherited Object_prototype k with
            | Some _ => true
            | None => false
            end
  end.

(** [table[k]] *)
Definition js_get (table : list (string * string)) (k : string) : JsVal :=
  match entry table k with
  | Some p => JStr p
  | None => match inherited Object_prototype k with
            | Some v => v
            | None => JUndefined
            end
  end.

(** What the loader has for a path when [useGLTF] asks: nothing yet (the
    hook throws the pending promise), the parsed asset, or a failure (the
    hook throws the error). A parsed asset is [Loaded] when it has a scene
    and [NoScene] when its [scene] is [undefined] (a file without scenes):
    the hook returns it all the same, and the clone inside [useMemo]
    throws. *)
Inductive LoadState : Type :=
| Pending
| Loaded
| Failed
| NoScene.

(** The loader's state for a file that has been parsed, by its scene. *)
Definition parsed_as (gltf_scene : option Object3D) : LoadState :=
  match gltf_scene with
  | Some _ => Loaded
  | None => NoScene
  end.

(** What a preview shows: the fallback as the placeholder of [Suspense], the
    instance, the fallback in place of the instance, or nothing at all (the
    GLB component has returned [null] without reporting an error). *)
Inductive Screen : Type :=
| Interim
| Instance
| Fallback
| Blank.

(** The state of one mounted preview: [loadError] of the model component
    (the safe-replacement variant has it), [hasError] of its
    [GLBErrorBoundary], the loader's state for the path, and what is
    shown. *)
Record Preview : Type := mkPreview {
  loadError : bool;
  hasError : bool;
  load : LoadState;
  screen : Screen
}.

(** The result of rendering the GLB component. *)
Inductive Rendering : Type :=
| ReturnsInstance   (* <Center><primitive object={cloned} /></Center> *)
| ReportsError      (* onError?.(); return null *)
| ThrowsPromise
| ThrowsError
| ReturnsNull.      (* if (!cloned) return null *)

(** [GLBCharacter] and [GLBWeapon]. In the safe-replacement variant
    [useGLTF] is called inside [try]/[catch]: whatever it throws, the pending
    promise included, ends in [onError()] and [return null]. In the
    auto-centering variant what [useGLTF] throws leaves the component. Once
    the asset is there the component runs its [useMemo]. For an asset with a
    scene that gives the instance, which the component returns. For an asset
    without a scene the clone throws: in the safe-replacement variant the
    [catch] inside [useMemo] turns that into [null] and the component returns
    [null], with no call of [onError]; in the auto-centering variant the
    exception leaves the component. *)
Definition GLB (v : Variant) (l : LoadState) : Rendering :=
  match v, l with
  | _, Loaded => ReturnsInstance
  | SafeVariant, (Pending | Failed) => ReportsError
  | SafeVariant, NoScene => ReturnsNull
  | AutoCenteringVariant, Pending => ThrowsPromise
  | AutoCenteringVariant, (Failed | NoScene) => ThrowsError
  end.

(** The same, read off the result of [useMemo]. *)
Definition GLB_of_cloned (v : Variant) (cloned : option Object3D) : Rendering :=
  match cloned, v with
  | Some _, _ => ReturnsInstance
  | None, SafeVariant => ReturnsNull
  | None, AutoCenteringVariant => ThrowsError
  end.

(** [GLBErrorBoundary.getDerivedStateFromError]: from then on the boundary
    renders its fallback. *)
Definition getDerivedStateFromError (p : Preview) : Preview :=
  {| loadError := loadError p; hasError := true; load := load p; screen := Fallback |}.

Definition show (p : Preview) (s : Screen) : Preview :=
  {| loadError := loadError p; hasError := hasError p; load := load p; screen := s |}.

(** [onError], that is [() => setLoadError(true)]; the update re-renders the
    model component, which then returns the fallback. *)
Definition setLoadError (p : Preview) : Preview :=
  {| loadError := true; hasError := hasError p; load := load p; screen := Fallback |}.

(** One render of the model component, with the state updates it causes.
    [hasGLB] is [id in MAP]. *)
Definition render (v : Variant) (hasGLB : bool) (p : Preview) : Preview :=
  if loadError p || negb hasGLB then show p Fallback
  else if hasError p then show p Fallback
  else match GLB v (load p) with
       | ReturnsInstance => show p Instance
       | ReportsError => setLoadError p
       | ThrowsPromise => show p Interim
       | ThrowsError => getDerivedStateFromError p
       | ReturnsNull => show p Blank
       end.

(** The GLB component is mounted and rendered: the calls of [useGLTF] a
    render makes. *)
Definition renders_GLB (hasGLB : bool) (p : Preview) : bool :=
  hasGLB && negb (loadError p) && negb (hasError p).

Definition useGLTF_calls (table : list (string * string)) (id : string)
    (p : Preview) : list JsVal :=
  if renders_GLB (js_in id table) p then [js_get table id] else [].

(** What can happen to a mounted preview. *)
Inductive Event : Type :=
| Rerender                (* React renders the component again *)
| Settles (ok : bool)     (* the pending load resolves, to an asset with a
                             scene, or rejects *)
| Escapes                 (* an exception leaves the rendering of the subtree *)
| SettlesNoScene.         (* the pending load resolves to an asset without a
                             scene *)

(** The pending load settles to [l]; the component that waited for it is
    rendered again. *)
Definition settle (v : Variant) (hasGLB : bool) (l : LoadState) (p : Preview) : Preview :=
  match load p with
  | Pending =>
      render v hasGLB
        {| loadError := loadError p; hasError := hasError p;
           load := l; screen := screen p |}
  | _ => p
  end.

Definition step (v : Variant) (hasGLB : bool) (e : Event) (p : Preview) : Preview :=
  match e with
  | Rerender => render v hasGLB p
  | Settles ok => settle v hasGLB (if ok then Loaded else Failed) p
  | SettlesNoScene => settle v hasGLB NoScene p
  | Escapes =>
      if renders_GLB hasGLB p then getDerivedStateFromError p else p
  end.

(** A preview before its first render, and mounting: the first render. *)
Definition unmounted (l : LoadState) : Preview :=
  {| loadError := false; hasError := false; load := l; screen := Interim |}.

Definition mount (v : Variant) (hasGLB : bool) (l : LoadState) : Preview :=
  render v hasGLB (unmounted l).

Fixpoint run (v : Variant) (hasGLB : bool) (es : list Event) (p : Preview) : Preview :=
  match es with
  | [] => p
  | e :: es' => run v hasGLB es' (step v hasGLB e p)
  end.

(** The states of the wrapper's machine: waiting in [Suspense], rendering
    its child with no error recorded, rendering the fallback. A child that
    has returned [null] has been rendered with no error recorded. *)
Inductive Phase : Type :=
| LOADING
| READY
| FAILED.

Definition phase (p : Preview) : Phase :=
  match screen p with
  | Interim => LOADING
  | Instance => READY
  | Blank => READY
  | Fallback => FAILED
  end.

(** The invariant of a mounted preview: the fallback is shown in place of
    the instance only with an error recorded or with [id in MAP] false, the
    instance is shown only with an asset with a scene and no error recorded,
    and nothing is shown only with an asset without a scene and no error
    recorded. *)
Definition consistent (hasGLB : bool) (p : Preview) : Prop :=
  match screen p with
  | Fallback => loadError p || hasError p || negb hasGLB = true
  | Instance => load p = Loaded /\ loadError p = false /\ hasError p = false /\
                hasGLB = true
  | Blank => load p = NoScene /\ loadError p = false /\ hasError p = false /\
             hasGLB = true
  | Interim => True
  end.

(** [CharacterModel3D] and [WeaponModel3D] for an id. *)
Definition CharacterModel3D (v : Variant) (id : string) (l : LoadState) : Preview :=
  mount v (js_in id CHARACTER_GLB_MAP) l.

Definition WeaponModel3D (v : Variant) (id : string) (l : LoadState) : Preview :=
  mount v (js_in id WEAPON_GLB_MAP) l.

(** ** Rotation

    [useFrame((_, delta) => { if (rotate && groupRef.current)
    groupRef.current.rotation.y += delta * rate })]. The yaw, the frame
    deltas and the rate are binary64 numbers, and every product and every sum
    is rounded to the nearest binary64 number. *)

(** The rate of a file: the literal [0.4] in [CharacterModel3D.tsx] and
    [0.5] in [WeaponModel3D.tsx], each the binary64 number nearest to it. *)
Definition rate (file : File) : float :=
  match file with
  | Character => 0.4%float
  | Weapon => 0.5%float
  end.

(** The callback handed to [useFrame]; [current] tells whether
    [groupRef.current] holds the group. *)
Definition useFrame (file : File) (rotate current : bool) (yaw delta : float) : float :=
  if rotate && current then (yaw + delta * rate file)%float else yaw.

(** The yaw after a sequence of frames, from the yaw before them. *)
Definition yaw_after (file : File) (rotate current : bool) (deltas : list float)
    (yaw : float) : float :=
  fold_left (useFrame file rotate current) deltas yaw.

(** The time a sequence of frames takes, as binary64 addition gives it. *)
Definition elapsed64 (deltas : list float) : float :=
  fold_left PrimFloat.add deltas 0%float.

(** The definitions below are the counterpart of that accumulation in exact
    arithmetic. *)

Definition character_rate : Q := 4 # 10.
Definition weapon_rate : Q := 5 # 10.

Definition rate_exact (file : File) : Q :=
  match file with
  | Character => character_rate
  | Weapon => weapon_rate
  end.

Definition useFrame_exact (rate : Q) (rotate : bool) (yaw delta : Q) : Q :=
  if rotate then (yaw + delta * rate)%Q else yaw.

Definition yaw_after_exact (rate : Q) (rotate : bool) (deltas : list Q) : Q :=
  fold_left (useFrame_exact rate rotate) deltas 0%Q.

Definition elapsed (deltas : list Q) : Q :=
  fold_left Qplus deltas 0%Q.

(** ** Further properties of materials *)

(** A double-sided [MeshStandardMaterial] whose colour is a colour. *)
Definition whitelisted (m : Material) : bool :=
  String.eqb (m_type m) "MeshStandardMaterial" && is_color (m_color m) &&
  is_double_sided (m_side m).

(** Not transparent, with full opacity. *)
Definition opaque (m : Material) : bool :=
  match m_transparent m, m_opacity m with
  | JBool false, JNum q => Qeq_bool q 1
  | _, _ => false
  end.

(** Every material a mesh of [o] references exists in [h] and satisfies
    [ok]. *)
Definition materials_all (ok : Material -> bool) (h : Heap) (o : Object3D) : bool :=
  forallb (fun l => match h !! l with
                    | Some m => ok m
                    | None => false
                    end) (mesh_materials o).

(** [null] or a truthy value. *)
Definition null_or_truthy (v : JsVal) : bool :=
  match v with
  | JNull => true
  | _ => truthy v
  end.

(** [false] or a truthy value. *)
Definition false_or_truthy (v : JsVal) : bool :=
  match v with
  | JBool false => true
  | _ => truthy v
  end.

(** A material in the form the rewrite of the safe-replacement variant
    produces. *)
Definition settled (m : Material) : Prop :=
  m_type m = "MeshStandardMaterial" /\ is_color (m_color m) = true /\
  null_or_truthy (m_map m) = true /\ null_or_truthy (m_normalMap m) = true /\
  not_nullish (m_roughness m) = true /\ not_nullish (m_metalness m) = true /\
  m_side m = DoubleSide /\
  false_or_truthy (m_transparent m) = true /\ not_nullish (m_opacity m) = true.

(** Two nodes show the same thing at the same place. *)
Definition same_shape (d d' : NodeData) : Prop :=
  name d' = name d /\ transform d' = transform d /\
  geometry d' = geometry d /\ isMesh d' = isMesh d.

(** What the screen says about the loader and the variant. *)
Definition reflects (v : Variant) (hasGLB : bool) (p : Preview) : Prop :=
  (load p = Failed -> screen p = Fallback) /\
  (screen p = Interim -> v = AutoCenteringVariant /\ hasGLB = true /\ load p = Pending) /\
  (screen p = Blank -> v = SafeVariant).

(** ** Sequences of events *)

(** No exception leaves the subtree. *)
Definition no_escape (es : list Event) : bool :=
  forallb (fun e => match e with Escapes => false | _ => true end) es.

(** Nothing happens but renders. *)
Definition only_rerender (es : list Event) : bool :=
  forallb (fun e => match e with Rerender => true | _ => false end) es.

(** ** Module initialisation: the prefetch

    [Object.values(MAP).forEach(path => { try { useGLTF.preload(path); }
    catch {} })], at the end of each of the four files. *)

(** The calls of [useGLTF.preload] made so far, in order. *)
Definition Calls : Type := list string.

(** A computation of the initialisation: it may throw, and it adds calls. *)
Definition Init (A : Type) : Type := Calls -> (JsError + A) * Calls.

(** [useGLTF.preload(path)]; [throws] tells for which paths the call
    throws. *)
Definition useGLTF_preload (throws : string -> bool) (path : string) : Init unit :=
  fun calls =>
    (if throws path then inl (TypeError "preload") else inr tt, calls ++ [path]).

(** [try { body } catch {}] *)
Definition try_ignore (body : Init unit) : Init unit :=
  fun calls =>
    match body calls with
    | (inl _, calls') => (inr tt, calls')
    | (inr a, calls') => (inr a, calls')
    end.

(** [array.forEach(callback)]: an exception of the callback ends the loop. *)
Fixpoint forEach (callback : string -> Init unit) (array : list string) : Init unit :=
  match array with
  | [] => fun calls => (inr tt, calls)
  | x :: rest =>
      fun calls =>
        match callback x calls with
        | (inl e, calls') => (inl e, calls')
        | (inr _, calls') => forEach callback rest calls'
        end
  end.

(** [Object.values(table)]: the values in the order of the literal (no key
    of the tables is an integer index). *)
Definition Object_values (table : list (string * string)) : list string :=
  List.map snd table.

Definition preload_all (throws : string -> bool) (table : list (string * string)) :
    Init unit :=
  forEach (fun path => try_ignore (useGLTF_preload throws path)) (Object_values table).

(** ** The elements the components return *)

Inductive Geometry : Type :=
| capsuleGeometry (args : list Q)
| sphereGeometry (args : list Q)
| boxGeometry (args : list Q)
| cylinderGeometry (args : list Q).

Inductive Angle : Type :=
| Radians (q : Q)
| HalfPi.                    (* Math.PI / 2 *)

Inductive Element : Type :=
| group (ref : bool) (scale : option JsVal) (children : list Element)
| mesh (position : option (list Q)) (rotation : option (list Angle))
       (geometry : Geometry) (meshStandardMaterial : Parameters)
| GLBErrorBoundary (fallback children : Element)
| Suspense (fallback children : Element)
| GLBElement (id : string) (onError : bool).

(** [character.colors] *)
Record Colors : Type := mkColors {
  primary : JsVal;
  secondary : JsVal
}.

(** [<meshStandardMaterial color=... roughness=... metalness=... />] *)
Definition material_props (color : JsVal) (roughness metalness : Q) : Parameters :=
  {| p_color := color; p_map := JUndefined; p_normalMap := JUndefined;
     p_roughness := JNum roughness; p_metalness := JNum metalness;
     p_side := JUndefined; p_transparent := JUndefined; p_opacity := JUndefined |}.

Definition FallbackModel (colors : Colors) : Element :=
  group false None
    [ mesh (Some [0; 5 # 10; 0]) None (capsuleGeometry [3 # 10; 6 # 10; 8; 16])
        (material_props (primary colors) (5 # 10) (3 # 10));
      mesh (Some [0; 11 # 10; 0]) None (sphereGeometry [2 # 10; 12; 12])
        (material_props (secondary colors) (4 # 10) (5 # 10)) ]%Q.

Definition FallbackWeapon (v : Variant) (scale : JsVal) : Element :=
  match v with
  | AutoCenteringVariant =>
      group false (Some scale)
        [ mesh None None (boxGeometry [12 # 10; 2 # 10; 15 # 100])
            (material_props (JStr "#333") (3 # 10) (8 # 10)) ]%Q
  | SafeVariant =>
      group false (Some scale)
        [ mesh (Some [0; 0; 0]) None (boxGeometry [12 # 10; 15 # 100; 8 # 100])
            (material_props (JStr "#2a2a2a") (3 # 10) (8 # 10));
          mesh (Some [-(5 # 10); -(5 # 100); 0]) None (boxGeometry [3 # 10; 2 # 10; 6 # 100])
            (material_props (JStr "#1a1a1a") (4 # 10) (6 # 10));
          mesh (Some [7 # 10; 2 # 100; 0]) (Some [Radians 0; Radians 0; HalfPi])
            (cylinderGeometry [2 # 100; 2 # 100; 3 # 10; 8])
            (material_props (JStr "#333") (2 # 10) (9 # 10));
          mesh (Some [1 # 10; -(15 # 100); 0]) None (boxGeometry [8 # 100; 15 # 100; 5 # 100])
            (material_props (JStr "#1a1a1a") (5 # 10) (7 # 10)) ]%Q
  end.

(** What a model component returns: the group that carries the ref and the
    scale, around the fallback or around the boundary, the [Suspense] and
    the GLB component. Only the safe-replacement variant has [loadError] and
    hands [onError] down. *)
Definition model_element (v : Variant) (hasGLB : bool) (fallback : Element)
    (id : string) (scale : JsVal) (loadError : bool) : Element :=
  match v with
  | SafeVariant =>
      if loadError || negb hasGLB then group true (Some scale) [fallback]
      else group true (Some scale)
             [GLBErrorBoundary fallback (Suspense fallback (GLBElement id true))]
  | AutoCenteringVariant =>
      group true (Some scale)
        [ if hasGLB
          then GLBErrorBoundary fallback (Suspense fallback (GLBElement id false))
          else fallback ]
  end.

Module Jsx.

Definition CharacterModel3D (v : Variant) (id : string) (colors : Colors)
    (scale : JsVal) (loadError : bool) : Element :=
  model_element v (js_in id CHARACTER_GLB_MAP) (FallbackModel colors) id scale loadError.

Definition WeaponModel3D (v : Variant) (weaponId : string) (scale : JsVal)
    (loadError : bool) : Element :=
  model_element v (js_in weaponId WEAPON_GLB_MAP) (FallbackWeapon v scale)
    weaponId scale loadError.

End Jsx.

(** What is on the screen of an element: a boundary that has caught shows
    its fallback, a [Suspense] whose child is suspended shows its
    fallback. *)
Fixpoint shown (hasError suspended : bool) (e : Element) : Element :=
  match e with
  | group r s cs => group r s (List.map (shown hasError suspended) cs)
  | GLBErrorBoundary fb ch => if hasError then fb else shown hasError suspended ch
  | Suspense fb ch => if suspended then fb else shown hasError suspended ch
  | mesh _ _ _ _ => e
  | GLBElement _ _ => e
  end.

Inductive Leaf : Type :=
| MeshLeaf
| GLBLeaf.

(** The meshes and GLB components of an element, each with the [scale]
    props of the groups around it, outermost first. *)
Fixpoint leaf_scales (above : list JsVal) (e : Element) : list (Leaf * list JsVal) :=
  match e with
  | group _ s cs =>
      concat (List.map (leaf_scales (above ++ match s with
                                               | Some x => [x]
                                               | None => []
                                               end)) cs)
  | mesh _ _ _ _ => [(MeshLeaf, above)]
  | GLBElement _ _ => [(GLBLeaf, above)]
  | GLBErrorBoundary _ ch => leaf_scales above ch
  | Suspense _ ch => leaf_scales above ch
  end.

(** The paths among the arguments of [useGLTF] calls. *)
Definition string_of (v : JsVal) : option string :=
  match v with
  | JStr s => Some s
  | _ => None
  end.

(** ** Sample assets *)

Definition empty_object : Material :=
  {| m_type := "Object"; m_color := JUndefined; m_map := JUndefined;
     m_normalMap := JUndefined; m_roughness := JUndefined;
     m_metalness := JUndefined; m_side := JUndefined;
     m_transparent := JUndefined; m_opacity := JUndefined |}.

(** A red, textured material as a loader produces it. *)
Definition painted : Material :=
  {| m_type := "MeshStandardMaterial"; m_color := JColor (Hex 16711680);
     m_map := JTexture 0; m_normalMap := JTexture 1;
     m_roughness := JNum (4 # 5); m_metalness := JNum (1 # 10);
     m_side := FrontSide; m_transparent := JBool false; m_opacity := JNum 1 |}.

(** The same with a roughness of 5. *)
Definition too_rough : Material :=
  {| m_type := "MeshStandardMaterial"; m_color := JColor (Hex 16711680);
     m_map := JTexture 0; m_normalMap := JTexture 1;
     m_roughness := JNum 5; m_metalness := JNum (1 # 10);
     m_side := FrontSide; m_transparent := JBool false; m_opacity := JNum 1 |}.

(** A material whose roughness is a label instead of a number. *)
Definition mislabeled : Material :=
  {| m_type := "MeshStandardMaterial"; m_color := JColor (Hex 16711680);
     m_map := JNull; m_normalMap := JNull;
     m_roughness := JStr "rough"; m_metalness := JNum (1 # 10);
     m_side := FrontSide; m_transparent := JBool false; m_opacity := JNum 1 |}.


(** A material whose colour is a number instead of a [THREE.Color]. *)
Definition plain_number_color : Material :=
  {| m_type := "MeshStandardMaterial"; m_color := JNum 255;
     m_map := JTexture 7; m_normalMap := JTexture 8;
     m_roughness := JNum (4 # 5); m_metalness := JNum (1 # 10);
     m_side := FrontSide; m_transparent := JBool false; m_opacity := JNum 1 |}.

(** A scene of one node. *)
Definition single (mesh : bool) (s : MatSlot) : Object3D :=
  Obj {| id := 0; name := "body"; transform := [0; 0; 0]%Z; geometry := Some 0;
         isMesh := mesh; material := s;
         skeleton := None |} [].

(** A group holding a mesh and a bone. *)
Definition rigged (s : MatSlot) : Object3D :=
  Obj {| id := 0; name := "root"; transform := [0; 0; 0]%Z; geometry := None;
         isMesh := false; material := SlotOne RNone;
         skeleton := None |}
      [ Obj {| id := 1; name := "skin"; transform := [0; 1; 0]%Z; geometry := Some 0;
               isMesh := true; material := s;
         skeleton := None |} [];
        Obj {| id := 2; name := "spine"; transform := [0; 2; 0]%Z; geometry := None;
               isMesh := false; material := SlotOne RNone;
         skeleton := None |} [] ].

(** A character as the loader produces it: a skinned mesh bound to a
    skeleton of two bones, which are nodes of the scene. *)
Definition skinned : Object3D :=
  Obj {| id := 0; name := "root"; transform := [0; 0; 0]%Z; geometry := None;
         isMesh := false; material := SlotOne RNone; skeleton := None |}
      [ Obj {| id := 1; name := "skin"; transform := [0; 1; 0]%Z; geometry := Some 0;
               isMesh := true; material := SlotOne (RMat 0);
               skeleton := Some {| skeleton_object := Parsed 0;
                                   bones := [Some 2; Some 3] |} |} [];
        Obj {| id := 2; name := "hip"; transform := [0; 1; 0]%Z; geometry := None;
               isMesh := false; material := SlotOne RNone; skeleton := None |}
            [ Obj {| id := 3; name := "spine"; transform := [0; 2; 0]%Z;
                     geometry := None; isMesh := false; material := SlotOne RNone;
                     skeleton := None |} [] ] ].

(** A group holding a mesh and a point cloud ([THREE.Points] is no mesh,
    and has a material). *)
Definition with_points : Object3D :=
  Obj {| id := 0; name := "root"; transform := [0; 0; 0]%Z; geometry := None;
         isMesh := false; material := SlotOne RNone;
         skeleton := None |}
      [ Obj {| id := 1; name := "hull"; transform := [0; 1; 0]%Z; geometry := Some 0;
               isMesh := true; material := SlotOne (RMat 0);
         skeleton := None |} [];
        Obj {| id := 2; name := "sparks"; transform := [0; 2; 0]%Z; geometry := Some 1;
               isMesh := false; material := SlotOne (RMat 1);
         skeleton := None |} [] ].

(** * Properties *)

Lemma traverse_Obj callback d cs :
  traverse callback (Obj d cs) =
  (let* d' := callback d in
   let* cs' := traverse_children callback cs in
   ret (Obj d' cs')).
Proof. reflexivity. Qed.

Lemma clone_Obj d cs next :
  clone (Obj d cs) next =
  (let '(cs', n) := clone_children cs (S next) in (Obj (set_id d next) cs', n)).
Proof. reflexivity. Qed.

Lemma tree_rel_impl (R R' : NodeData -> NodeData -> Prop) :
  (forall d d', R d d' -> R' d d') ->
  forall o o', tree_rel R o o' -> tree_rel R' o o'.
Proof.
  intros HR o. induction o as [d cs IH] using Object3D_ind'.
  intros o' H. inversion H as [d0 d' cs0 cs' Hd Hcs]; subst.
  constructor; [auto|].
  clear H Hd. revert cs' Hcs.
  induction IH as [|c l Hc _ IHl]; intros cs' Hcs; inversion Hcs; subst; constructor; auto.
Qed.

Lemma tree_rel_nodes R o : forall o',
  tree_rel R o o' -> Forall2 R (nodes o) (nodes o').
Proof.
  induction o as [d cs IH] using Object3D_ind'.
  intros o' H. inversion H as [d0 d' cs0 cs' Hd Hcs]; subst. simpl.
  constructor; [exact Hd|].
  clear H Hd. revert cs' Hcs.
  induction IH as [|c l Hc _ IHl]; intros cs' Hcs; inversion Hcs; subst; simpl.
  - constructor.
  - apply Forall2_app; auto.
Qed.


(** What a traversal establishes, from what its callback establishes on one
    node. [h0] is the store the traversal starts from (or any earlier one);
    the callback may only extend the store. *)
Section Traverse.
Variable callback : NodeData -> M NodeData.
Variable h0 : Heap.
Variable W : NodeData -> Prop.
Variable Q : NodeData -> NodeData -> Heap -> Prop.

Hypothesis callback_spec : forall d h,
  W d -> h0 `prefix_of` h ->
  exists d' h', callback d h = Normal d' h' /\ h `prefix_of` h' /\ Q d d' h'.
Hypothesis Q_mono : forall d d' h h',
  Q d d' h -> h `prefix_of` h' -> Q d d' h'.

Lemma traverse_spec o : forall h,
  all_nodes W o -> h0 `prefix_of` h ->
  exists o' h', traverse callback o h = Normal o' h' /\
                h `prefix_of` h' /\
                tree_rel (fun d d' => Q d d' h') o o'.
Proof.
  induction o as [d cs IH] using Object3D_ind'.
  intros h Hall Hh. inversion Hall as [d0 cs0 Hd Hcs]; subst.
  destruct (callback_spec d h Hd Hh) as (d' & h1 & Hcb & Hp1 & HQ).
  assert (Hch : forall h1, h0 `prefix_of` h1 ->
            exists cs' h2, traverse_children callback cs h1 = Normal cs' h2 /\
                           h1 `prefix_of` h2 /\
                           Forall2 (tree_rel (fun d d' => Q d d' h2)) cs cs').
  { clear Hall Hd Hcb Hp1 HQ Hh h h1 d d'.
    induction IH as [|c l Hc _ IHl]; intros h1 Hh1.
    - exists [], h1. repeat split; [reflexivity | constructor].
    - inversion Hcs as [|? ? Hac Hal]; subst.
      destruct (Hc h1 Hac Hh1) as (c' & h2 & Hrun & Hp & Hrel).
      destruct (IHl Hal h2) as (l' & h3 & Hrun' & Hp' & Hrel').
      { etransitivity; eassumption. }
      exists (c' :: l'), h3. split; [|split].
      + simpl. unfold bind at 1. rewrite Hrun.
        unfold bind at 1. fold (traverse_children callback). rewrite Hrun'. reflexivity.
      + etransitivity; eassumption.
      + constructor; [|exact Hrel'].
        apply (tree_rel_impl (fun d d' => Q d d' h2)); [|exact Hrel].
        intros x x' Hx. exact (Q_mono x x' h2 h3 Hx Hp'). }
  destruct (Hch h1) as (cs' & h2 & Hrun & Hp2 & Hrel).
  { etransitivity; eassumption. }
  exists (Obj d' cs'), h2. split; [|split].
  - rewrite traverse_Obj. unfold bind at 1. rewrite Hcb.
    unfold bind at 1. rewrite Hrun. reflexivity.
  - etransitivity; eassumption.
  - constructor; [|exact Hrel]. eapply Q_mono; eassumption.
Qed.
End Traverse.

(** ** The pass of the safe-replacement variant, node by node *)

Lemma deref_prefix (h0 h : Heap) (r : MatRef) :
  Forall (fun l => l < length h0) (ref_locs r) ->
  h0 `prefix_of` h -> deref h r = deref h0 r.
Proof.
  intros Hr Hp. destruct r as [|l]; simpl; [reflexivity|].
  symmetry. apply prefix_lookup_lt; [|exact Hp].
  inversion Hr; subst; assumption.
Qed.

Lemma replaceMat_run (r : MatRef) (h : Heap) :
  SafeReplacement.replaceMat r h =
  Normal (RMat (length h)) (h ++ [SafeReplacement.replaceMat_value (deref h r)]).
Proof.
  unfold SafeReplacement.replaceMat, SafeReplacement.replaceMat_value,
    try_catch, bind, read, reads, lift.
  destruct (SafeReplacement.replaceMat_parameters (deref h r)); reflexivity.
Qed.

Lemma rewritten_mono h0 h1 h2 src r :
  SafeReplacement.rewritten h0 h1 src r -> h1 `prefix_of` h2 ->
  SafeReplacement.rewritten h0 h2 src r.
Proof.
  intros (l & -> & Hl & Hlk) Hp. exists l. repeat split; [exact Hl|].
  eapply prefix_lookup_Some; eassumption.
Qed.

Lemma lookup_snoc_new (h : Heap) (m : Material) : (h ++ [m]) !! length h = Some m.
Proof. rewrite lookup_app_r by lia. rewrite Nat.sub_diag. reflexivity. Qed.

Lemma replaceMat_spec h0 r h :
  Forall (fun l => l < length h0) (ref_locs r) -> h0 `prefix_of` h ->
  exists r' h', SafeReplacement.replaceMat r h = Normal r' h' /\
                h `prefix_of` h' /\ SafeReplacement.rewritten h0 h' r r'.
Proof.
  intros Hr Hp. eexists _, _. split; [apply replaceMat_run|]. split.
  - apply prefix_app_r. reflexivity.
  - exists (length h). repeat split.
    + apply prefix_length. exact Hp.
    + rewrite (deref_prefix h0 h r Hr Hp). apply lookup_snoc_new.
Qed.

Lemma array_map_replaceMat_spec h0 rs : forall h,
  Forall (fun l => l < length h0) (concat (List.map ref_locs rs)) ->
  h0 `prefix_of` h ->
  exists rs' h', array_map SafeReplacement.replaceMat rs h = Normal rs' h' /\
                 h `prefix_of` h' /\
                 Forall2 (SafeReplacement.rewritten h0 h') rs rs'.
Proof.
  induction rs as [|r rs IH]; intros h Hrs Hp.
  - exists [], h. repeat split; [reflexivity | constructor].
  - simpl in Hrs. apply Forall_app in Hrs. destruct Hrs as [Hr Hrs].
    destruct (replaceMat_spec h0 r h Hr Hp) as (r' & h1 & Hrun & Hp1 & Hrw).
    destruct (IH h1 Hrs) as (rs' & h2 & Hrun' & Hp2 & Hrws).
    { etransitivity; eassumption. }
    exists (r' :: rs'), h2. split; [|split].
    + simpl. unfold bind at 1. rewrite Hrun. unfold bind at 1. rewrite Hrun'.
      reflexivity.
    + etransitivity; eassumption.
    + constructor; [|exact Hrws]. eapply rewritten_mono; eassumption.
Qed.

Lemma node_sanitized_mono h0 h1 h2 d d' :
  SafeReplacement.node_sanitized h0 h1 d d' -> h1 `prefix_of` h2 ->
  SafeReplacement.node_sanitized h0 h2 d d'.
Proof.
  unfold SafeReplacement.node_sanitized. intros H Hp.
  destruct (isMesh d); [|exact H].
  destruct (material d) as [[|l]|rs].
  - destruct H as (l' & -> & Hl & Hlk). exists l'. repeat split; [exact Hl|].
    eapply prefix_lookup_Some; eassumption.
  - destruct H as (r' & -> & Hrw). exists r'. split; [reflexivity|].
    eapply rewritten_mono; eassumption.
  - destruct H as (rs' & -> & Hrws). exists rs'. split; [reflexivity|].
    eapply Forall2_impl; [exact Hrws|]. intros; eapply rewritten_mono; eassumption.
Qed.

Lemma sanitize_child_spec h0 d h :
  refs_below (length h0) d -> h0 `prefix_of` h ->
  exists d' h', SafeReplacement.sanitize_child d h = Normal d' h' /\
                h `prefix_of` h' /\ SafeReplacement.node_sanitized h0 h' d d'.
Proof.
  unfold refs_below, SafeReplacement.sanitize_child, SafeReplacement.node_sanitized.
  intros Hd Hp. destruct (isMesh d); simpl.
  { destruct (material d) as [[|l]|rs]; simpl in Hd.
    - eexists _, _. split; [reflexivity|]. split; [apply prefix_app_r; reflexivity|].
      exists (length h). repeat split.
      + apply prefix_length, Hp.
      + apply lookup_snoc_new.
    - destruct (replaceMat_spec h0 (RMat l) h Hd Hp) as (r' & h1 & Hrun & Hp1 & Hrw).
      exists (set_material d (SlotOne r')), h1. split; [|split]; [|exact Hp1|].
      + unfold try_catch, bind. rewrite Hrun. reflexivity.
      + exists r'. split; [reflexivity | exact Hrw].
    - destruct (array_map_replaceMat_spec h0 rs h Hd Hp) as (rs' & h1 & Hrun & Hp1 & Hrw).
      exists (set_material d (SlotArray rs')), h1. split; [|split]; [|exact Hp1|].
      + unfold try_catch, bind. rewrite Hrun. reflexivity.
      + exists rs'. split; [reflexivity | exact Hrw]. }
  exists d, h. repeat split; reflexivity.
Qed.

(** The pass always runs to its end, only extends the store, and leaves
    every node as [node_sanitized] describes. *)
Lemma sanitizeMaterials_spec (o : Object3D) (h : Heap) :
  well_formed h o ->
  exists o' h', SafeReplacement.sanitizeMaterials o h = Normal o' h' /\
                h `prefix_of` h' /\
                tree_rel (SafeReplacement.node_sanitized h h') o o'.
Proof.
  intros Hwf. unfold SafeReplacement.sanitizeMaterials.
  apply (traverse_spec SafeReplacement.sanitize_child h (refs_below (length h))
           (fun d d' h' => SafeReplacement.node_sanitized h h' d d')).
  - intros d h1. apply sanitize_child_spec.
  - intros d d' h1 h2. apply node_sanitized_mono.
  - exact Hwf.
  - reflexivity.
Qed.

(** ** Cloning *)

Lemma clone_spec o : forall n,
  exists o' n', clone o n = (o', n') /\ n < n' /\ tree_rel (node_cloned n n') o o'.
Proof.
  induction o as [d cs IH] using Object3D_ind'. intros n.
  assert (Hch : forall k, exists cs' k', clone_children cs k = (cs', k') /\ k <= k' /\
                  Forall2 (tree_rel (node_cloned k k')) cs cs').
  { induction IH as [|c l Hc _ IHl]; intros k.
    - exists [], k. repeat split; [lia | constructor].
    - destruct (Hc k) as (c' & k1 & Hrun & Hlt & Hrel).
      destruct (IHl k1) as (l' & k2 & Hrun' & Hle & Hrel').
      exists (c' :: l'), k2. split; [|split].
      + simpl. rewrite Hrun. fold clone_children. rewrite Hrun'. reflexivity.
      + lia.
      + constructor.
        * eapply tree_rel_impl; [|exact Hrel].
          intros x x' (i & -> & Hi). exists i. split; [reflexivity | lia].
        * eapply Forall2_impl; [exact Hrel'|]. intros a b Hab.
          eapply tree_rel_impl; [|exact Hab].
          intros x x' (i & -> & Hi). exists i. split; [reflexivity | lia]. }
  destruct (Hch (S n)) as (cs' & n' & Hrun & Hle & Hrel).
  exists (Obj (set_id d n) cs'), n'. split; [|split].
  - rewrite clone_Obj, Hrun. reflexivity.
  - lia.
  - constructor.
    + exists n. split; [reflexivity | lia].
    + eapply Forall2_impl; [exact Hrel|]. intros a b Hab.
      eapply tree_rel_impl; [|exact Hab].
      intros x x' (i & -> & Hi). exists i. split; [reflexivity | lia].
Qed.

Lemma tree_rel_all_nodes (R : NodeData -> NodeData -> Prop) (W W' : NodeData -> Prop) :
  (forall d d', R d d' -> W d -> W' d') ->
  forall o o', tree_rel R o o' -> all_nodes W o -> all_nodes W' o'.
Proof.
  intros HR o. induction o as [d cs IH] using Object3D_ind'.
  intros o' Hrel Hall. inversion Hrel as [d0 d' cs0 cs' Hd Hcs]; subst.
  inversion Hall as [d0 cs0 HW HWs]; subst.
  constructor; [eauto|].
  clear Hrel Hall Hd HW. revert cs' Hcs.
  induction IH as [|c l Hc _ IHl]; intros cs' Hcs; inversion Hcs; subst.
  - constructor.
  - inversion HWs; subst. constructor; auto.
Qed.

Lemma tree_rel_compose (R1 R2 : NodeData -> NodeData -> Prop) : forall a b c,
  tree_rel R1 a b -> tree_rel R2 b c ->
  tree_rel (fun x z => exists y, R1 x y /\ R2 y z) a c.
Proof.
  intros a. induction a as [d cs IH] using Object3D_ind'.
  intros b c H1 H2. inversion H1 as [d0 d1 cs0 cs1 Hd1 Hcs1]; subst.
  inversion H2 as [d0 d2 cs0 cs2 Hd2 Hcs2]; subst.
  constructor; [eauto|].
  clear H1 H2 Hd1 Hd2. revert cs1 cs2 Hcs1 Hcs2.
  induction IH as [|x l Hx _ IHl]; intros cs1 cs2 Hcs1 Hcs2;
    inversion Hcs1; subst; inversion Hcs2; subst; constructor; eauto.
Qed.

Lemma tree_rel_map {A : Type} (f : NodeData -> A) (R : NodeData -> NodeData -> Prop) a b :
  (forall d d', R d d' -> f d' = f d) -> tree_rel R a b ->
  List.map f (nodes b) = List.map f (nodes a).
Proof.
  intros HR Hrel. apply tree_rel_nodes in Hrel.
  induction Hrel as [|d d' ds ds' Hd _ IH]; simpl; [reflexivity|].
  rewrite (HR _ _ Hd), IH. reflexivity.
Qed.

Lemma rebind_id m d : id (rebind m d) = id d.
Proof. unfold rebind. destruct (skeleton d); reflexivity. Qed.

Lemma set_skeleton_same (d : NodeData) : set_skeleton d (skeleton d) = d.
Proof. destruct d; reflexivity. Qed.

Lemma node_cloned_copied lo hi d d' : node_cloned lo hi d d' -> node_copied lo hi d d'.
Proof.
  intros (i & -> & Hi). exists i, (skeleton d). split; [|exact Hi].
  symmetry. apply (set_skeleton_same (set_id d i)).
Qed.

Lemma node_rebound_copied m lo hi d d' : node_rebound m lo hi d d' -> node_copied lo hi d d'.
Proof.
  intros (i & -> & Hi). destruct d as [i0 n t g me ma [sk|]]; unfold rebind; simpl.
  - eexists i, _. split; [reflexivity | exact Hi].
  - exists i, None. split; [reflexivity | exact Hi].
Qed.

Lemma map_nodes_spec (f : NodeData -> NodeData) o :
  tree_rel (fun d d' => d' = f d) o (map_nodes f o).
Proof.
  induction o as [d cs IH] using Object3D_ind'. simpl.
  constructor; [reflexivity|].
  induction IH as [|c l Hc _ IHl]; simpl; constructor; assumption.
Qed.

(** [SkeletonUtils.clone]: the copy is the plain copy with every skinned mesh
    re-bound, through the table that sends the ids of the source to the ids
    of the plain copy. *)
Lemma SkeletonUtils_clone_spec o n :
  exists c o' n', clone o n = (c, n') /\ SkeletonUtils_clone o n = (o', n') /\ n < n' /\
    tree_rel (node_rebound (combine (List.map id (nodes o)) (List.map id (nodes c))) n n')
      o o' /\
    List.map id (nodes o') = List.map id (nodes c).
Proof.
  destruct (clone_spec o n) as (c & n' & Hc & Hn & Hrel).
  exists c, (map_nodes (rebind (combine (List.map id (nodes o)) (List.map id (nodes c)))) c), n'.
  split; [exact Hc|]. split; [unfold SkeletonUtils_clone; rewrite Hc; reflexivity|].
  split; [exact Hn|]. split.
  - eapply tree_rel_impl; [|exact (tree_rel_compose _ _ _ _ _ Hrel (map_nodes_spec _ c))].
    intros d d' (y & (i & -> & Hi) & ->). exists i. split; [reflexivity | exact Hi].
  - eapply tree_rel_map; [|apply map_nodes_spec].
    intros d d' ->. apply rebind_id.
Qed.

(** Either way of cloning. *)
Lemma copy_spec (file : File) o n :
  exists c n', match file with
               | Character => SkeletonUtils_clone o n
               | Weapon => clone o n
               end = (c, n') /\ n < n' /\ tree_rel (node_copied n n') o c.
Proof.
  destruct file.
  - destruct (SkeletonUtils_clone_spec o n) as (c & o' & n' & _ & Hrun & Hn & Hrel & _).
    exists o', n'. split; [exact Hrun|]. split; [exact Hn|].
    eapply tree_rel_impl; [|exact Hrel]. intros d d'. apply node_rebound_copied.
  - destruct (clone_spec o n) as (c & n' & Hrun & Hn & Hrel).
    exists c, n'. split; [exact Hrun|]. split; [exact Hn|].
    eapply tree_rel_impl; [|exact Hrel]. intros d d'. apply node_cloned_copied.
Qed.

(** The instance a preview builds: it always exists, the store and the id
    counter only grow, and every node is a cloned and sanitized copy of the
    scene's node at the same place. *)
Lemma cloned_spec (file : File) (scene : Object3D) (w : World) :
  well_formed (heap w) scene ->
  exists inst w', SafeReplacement.cloned file scene w = (Some inst, w') /\
                  heap w `prefix_of` heap w' /\ nextId w < nextId w' /\
                  tree_rel (SafeReplacement.node_instance w w') scene inst.
Proof.
  intros Hwf. unfold SafeReplacement.cloned.
  destruct (copy_spec file scene (nextId w)) as (c & n & Hc & Hn & Hrel). rewrite Hc.
  assert (Hwf' : well_formed (heap w) c).
  { eapply tree_rel_all_nodes; [|exact Hrel|exact Hwf].
    intros d d' (i & sk & -> & _) Hd. exact Hd. }
  destruct (sanitizeMaterials_spec c (heap w) Hwf') as (o' & h' & Hrun & Hp & Hrel').
  rewrite Hrun. eexists _, _. split; [reflexivity|]. simpl.
  split; [exact Hp|]. split; [exact Hn|].
  eapply tree_rel_impl; [|exact (tree_rel_compose _ _ _ _ _ Hrel Hrel')].
  intros d d' (y & Hy1 & Hy2). exists y. split; assumption.
Qed.

(** ** The materials of an instance *)

Lemma rewritten_elements h0 h' rs rs' :
  Forall2 (SafeReplacement.rewritten h0 h') rs rs' ->
  Forall2 (fun r' m => exists l', r' = RMat l' /\ length h0 <= l' /\ h' !! l' = Some m)
    rs' (List.map (fun r => SafeReplacement.replaceMat_value (deref h0 r)) rs).
Proof.
  induction 1 as [|r r' rs rs' (l' & -> & Hl & Hlk) _ IH]; simpl; constructor; eauto.
Qed.

Lemma node_sanitized_materials h0 h' d d' :
  SafeReplacement.node_sanitized h0 h' d d' -> isMesh d = true ->
  isMesh d' = true /\
  Forall2 (fun r' m => exists l', r' = RMat l' /\ length h0 <= l' /\ h' !! l' = Some m)
    (slot_elements (material d')) (SafeReplacement.expected_slot h0 (material d)).
Proof.
  unfold SafeReplacement.node_sanitized. intros H Hm. rewrite Hm in H.
  destruct (material d) as [[|l]|rs]; simpl.
  - destruct H as (l' & -> & Hl & Hlk). simpl. split; [exact Hm|].
    constructor; [eauto | constructor].
  - destruct H as (r' & -> & (l' & -> & Hl & Hlk)). simpl. split; [exact Hm|].
    constructor; [eauto | constructor].
  - destruct H as (rs' & -> & Hrw). simpl. split; [exact Hm|].
    apply rewritten_elements. exact Hrw.
Qed.

Lemma node_sanitized_not_mesh h0 h' d d' :
  SafeReplacement.node_sanitized h0 h' d d' -> isMesh d = false -> d' = d.
Proof. unfold SafeReplacement.node_sanitized. intros H Hm. rewrite Hm in H. exact H. Qed.

Lemma expected_slot_sources (P : Material -> Prop) h0 s :
  P (MeshStandardMaterial SafeReplacement.bare_parameters) ->
  P (SafeReplacement.replaceMat_value None) ->
  (forall l, In l (slot_refs s) -> P (SafeReplacement.replaceMat_value (h0 !! l))) ->
  Forall P (SafeReplacement.expected_slot h0 s).
Proof.
  intros Hbare Hnone Hsrc. destruct s as [[|l]|rs]; simpl in *.
  - constructor; [exact Hbare | constructor].
  - constructor; [|constructor]. apply Hsrc. left. reflexivity.
  - induction rs as [|r rs IH]; simpl in *; constructor.
    + destruct r as [|l]; simpl; [exact Hnone|]. apply Hsrc. left. reflexivity.
    + apply IH. intros l Hl. apply Hsrc. apply in_or_app. right. exact Hl.
Qed.

(** Every slot element of a mesh of an instance references a new material,
    which is either the bare default or the rewrite of an element of the
    scene's slot. *)
Lemma instance_surface_elements (P : Material -> Prop) w w' scene inst :
  tree_rel (SafeReplacement.node_instance w w') scene inst ->
  P (MeshStandardMaterial SafeReplacement.bare_parameters) ->
  P (SafeReplacement.replaceMat_value None) ->
  (forall l, In l (mesh_materials scene) ->
             P (SafeReplacement.replaceMat_value (heap w !! l))) ->
  forall r, In r (surface_elements inst) ->
    exists l' m, r = RMat l' /\ length (heap w) <= l' /\
                 heap w' !! l' = Some m /\ P m.
Proof.
  intros Hrel Hbare Hnone. apply tree_rel_nodes in Hrel.
  unfold mesh_materials, surface_elements.
  induction Hrel as [|d d' ds ds' Hd _ IH]; intros Hsrc r Hr.
  - destruct Hr.
  - destruct Hd as (c & (i & sk & -> & _) & Hs). simpl in Hsrc, Hr.
    destruct (isMesh d) eqn:Hm.
    + destruct (node_sanitized_materials _ _ _ _ Hs Hm) as [Hm' Hmat].
      rewrite Hm' in Hr. simpl in Hsrc, Hr.
      apply in_app_or in Hr. destruct Hr as [Hr|Hr].
      * assert (HP : Forall P (SafeReplacement.expected_slot (heap w) (material d))).
        { apply expected_slot_sources; [exact Hbare | exact Hnone |].
          intros l Hl. apply Hsrc. apply in_or_app. left. exact Hl. }
        simpl in Hmat. clear -Hmat HP Hr.
        induction Hmat as [|x m xs ms (l' & -> & Hx & Hlk) _ IHm]; [destruct Hr|].
        inversion HP; subst. destruct Hr as [<-|Hr]; eauto 6.
      * apply IH; [|exact Hr]. intros l Hl. apply Hsrc. apply in_or_app. right. exact Hl.
    + rewrite (node_sanitized_not_mesh _ _ _ _ Hs Hm) in Hr. simpl in Hr.
      rewrite Hm in Hr. apply IH; assumption.
Qed.




Lemma Forall_all_nodes W o : Forall W (nodes o) -> all_nodes W o.
Proof.
  induction o as [d cs IH] using Object3D_ind'. simpl. intros H.
  inversion H as [|? ? Hd Hcs]; subst. constructor; [exact Hd|].
  clear H Hd. induction IH as [|c l Hc _ IHl]; simpl in Hcs; constructor.
  - apply Hc. apply Forall_app in Hcs. tauto.
  - apply IHl. apply Forall_app in Hcs. tauto.
Qed.

Lemma stored_well_formed h o : stored h o = true -> well_formed h o.
Proof.
  unfold stored, well_formed, materials_of, refs_below. intros H.
  apply Forall_all_nodes. rewrite forallb_forall in H.
  induction (nodes o) as [|d ds IH]; constructor.
  - apply List.Forall_forall. intros l Hl. apply Nat.ltb_lt, H. simpl.
    apply in_or_app. left. exact Hl.
  - apply IH. intros l Hl. apply H. simpl. apply in_or_app. right. exact Hl.
Qed.

(** ** C1: ranges of roughness, metalness and opacity *)

Lemma passed_through_in_unit (cur v : JsVal) (d : Q) :
  in_unit (JNum d) = true -> absent_or_unit v = true ->
  in_unit (setValue cur (if not_nullish v then v else JNum d)) = true.
Proof. intros Hd Hv. destruct v; simpl in *; try discriminate; assumption. Qed.

Lemma replaceMat_value_in_range (m : Material) :
  source_in_range m = true ->
  in_range (SafeReplacement.replaceMat_value (Some m)) = true.
Proof.
  unfold source_in_range. rewrite !andb_true_iff. intros [[Hr Hm] Ho].
  unfold SafeReplacement.replaceMat_value, SafeReplacement.replaceMat_parameters.
  destruct (if truthy (field m_color (Some m)) then call_clone (field m_color (Some m))
            else inr (JColor (Hex gray))) as [e|c]; [reflexivity|].
  unfold in_range. simpl. rewrite !andb_true_iff. repeat split.
  - apply passed_through_in_unit; [reflexivity | exact Hr].
  - apply passed_through_in_unit; [reflexivity | exact Hm].
  - apply (passed_through_in_unit _ _ 1); [reflexivity | exact Ho].
Qed.

Lemma surfaces_all_intro (ok : Material -> bool) h o :
  (forall r, In r (surface_elements o) ->
             exists l m, r = RMat l /\ h !! l = Some m /\ ok m = true) ->
  surfaces_all ok h o = true.
Proof.
  intros H. unfold surfaces_all. apply forallb_forall. intros r Hr.
  destruct (H r Hr) as (l & m & -> & Hl & Hm). simpl. rewrite Hl. exact Hm.
Qed.

Lemma sources_all_elim (ok : Material -> bool) h o l m :
  sources_all ok h o = true -> In l (mesh_materials o) -> h !! l = Some m ->
  ok m = true.
Proof.
  unfold sources_all. rewrite forallb_forall. intros H Hl Hm.
  specialize (H l Hl). rewrite Hm in H. exact H.
Qed.

(** C1, as the code has it: when every mesh material of the loaded asset has
    its roughness, metalness and opacity either missing or within [0,1],
    clone followed by sanitize yields an instance in which every surface's
    roughness, metalness and opacity lie within [0,1]. (A value that is
    present is stored as it is, see the lemma after this one.) *)
Theorem clone_sanitize_in_range (file : File) (scene : Object3D) (w : World) :
  stored (heap w) scene = true ->
  sources_all source_in_range (heap w) scene = true ->
  exists inst w', SafeReplacement.cloned file scene w = (Some inst, w') /\
                  surfaces_all in_range (heap w') inst = true.
Proof.
  intros Hst Hsrc.
  destruct (cloned_spec file scene w (stored_well_formed _ _ Hst))
    as (inst & w' & Hrun & _ & _ & Hrel).
  exists inst, w'. split; [exact Hrun|].
  apply surfaces_all_intro. intros r Hr.
  destruct (instance_surface_elements (fun m => in_range m = true) w w' scene inst Hrel)
    with (r := r) as (l' & m' & Heq & _ & Hlk & Hok);
    [reflexivity | reflexivity | | exact Hr | eauto].
  intros l Hl. destruct (heap w !! l) as [m|] eqn:Hm; [|reflexivity].
  apply replaceMat_value_in_range. eapply sources_all_elim; eassumption.
Qed.

Lemma clone_sanitize_in_range_witness :
  exists inst w', SafeReplacement.cloned Character
                    (rigged (SlotArray [RMat 0; RNone; RMat 1]))
                    {| heap := [painted; empty_object]; nextId := 3 |} = (Some inst, w') /\
                  surfaces_all in_range (heap w') inst = true.
Proof. apply clone_sanitize_in_range; reflexivity. Defined.

(** C1 as the specification states it fails: an asset whose material has a
    roughness of 5 gives an instance whose surface has a roughness of 5. *)
Lemma clone_sanitize_out_of_range :
  exists inst w', SafeReplacement.cloned Character (single true (SlotOne (RMat 0)))
                    {| heap := [too_rough]; nextId := 1 |} = (Some inst, w') /\
                  surfaces_all in_range (heap w') inst = false /\
                  (m_roughness <$> heap w' !! 1) = Some (JNum 5).
Proof. eexists _, _. split; [reflexivity|]. split; reflexivity. Qed.

(** The rewrite stores what it is given: a number that is present is
    neither checked nor clamped. *)
Lemma replaceMat_value_roughness (m : Material) (p : Parameters) :
  SafeReplacement.replaceMat_parameters (Some m) = inr p ->
  not_nullish (m_roughness m) = true ->
  m_roughness (SafeReplacement.replaceMat_value (Some m)) = m_roughness m.
Proof.
  unfold SafeReplacement.replaceMat_value. intros Hp Hn. rewrite Hp.
  unfold SafeReplacement.replaceMat_parameters in Hp.
  destruct (if truthy (field m_color (Some m)) then call_clone (field m_color (Some m))
            else inr (JColor (Hex gray))) as [e|c]; [discriminate|].
  injection Hp as <-. simpl. rewrite Hn.
  destruct (m_roughness m); try reflexivity; discriminate.
Qed.

(** ** C2: material arrays *)


Lemma passed_through_texture (v : JsVal) :
  falsy_or is_texture v = true ->
  texture_or_null (setValue JNull (js_or v JNull)) = true.
Proof. unfold falsy_or, js_or. destruct v; simpl; try discriminate; try reflexivity.
  - destruct b; [discriminate | reflexivity].
  - destruct (Qeq_bool q 0); [reflexivity | discriminate].
  - destruct (String.eqb s ""); [reflexivity | discriminate].
Qed.

Lemma passed_through_bool (v : JsVal) :
  falsy_or is_bool v = true ->
  is_bool (setValue (JBool false) (js_or v (JBool false))) = true.
Proof. unfold falsy_or, js_or. destruct v; simpl; try discriminate; try reflexivity.
  - destruct b; reflexivity.
  - destruct (Qeq_bool q 0); [reflexivity | discriminate].
  - destruct (String.eqb s ""); [reflexivity | discriminate].
Qed.

Lemma replaceMat_value_valid (mat : option Material) :
  source_valid mat = true ->
  valid_descriptor (SafeReplacement.replaceMat_value mat) = true.
Proof.
  destruct mat as [m|]; [|reflexivity].
  unfold source_valid. rewrite !andb_true_iff. intros [[[Hmap Hnormal] Hrange] Htr].
  pose proof (replaceMat_value_in_range m Hrange) as Hin. revert Hin.
  unfold SafeReplacement.replaceMat_value, SafeReplacement.replaceMat_parameters.
  destruct (if truthy (field m_color (Some m)) then call_clone (field m_color (Some m))
            else inr (JColor (Hex gray))) as [e|c]; [reflexivity|].
  intros Hin. unfold valid_descriptor. rewrite Hin. simpl.
  rewrite (passed_through_texture _ Hmap), (passed_through_texture _ Hnormal),
    (passed_through_bool _ Htr). reflexivity.
Qed.

(** C2, as the code has it: [sanitizeMaterials] replaces an array of N
    elements by an array of N newly allocated materials, the i-th being the
    rewrite of the i-th element alone (of nothing, where the element is
    missing); each is a valid descriptor when its source is missing or well
    typed and in range. *)
Theorem array_slot_rewritten (scene : Object3D) (h : Heap) :
  stored h scene = true ->
  exists scene' h',
    SafeReplacement.sanitizeMaterials scene h = Normal scene' h' /\
    tree_rel (fun d d' =>
      isMesh d = true -> forall rs, material d = SlotArray rs ->
        exists rs', material d' = SlotArray rs' /\ length rs' = length rs /\
          forall i src, rs !! i = Some src ->
            exists l' m', rs' !! i = Some (RMat l') /\ length h <= l' /\
              h' !! l' = Some m' /\
              m' = SafeReplacement.replaceMat_value (deref h src) /\
              (source_valid (deref h src) = true -> valid_descriptor m' = true))
      scene scene'.
Proof.
  intros Hst.
  destruct (sanitizeMaterials_spec scene h (stored_well_formed _ _ Hst))
    as (scene' & h' & Hrun & _ & Hrel).
  exists scene', h'. split; [exact Hrun|].
  eapply tree_rel_impl; [|exact Hrel]. clear Hrel Hrun.
  unfold SafeReplacement.node_sanitized. intros d d' H Hm rs Hrs.
  rewrite Hm, Hrs in H. destruct H as (rs' & -> & Hrw).
  exists rs'. split; [reflexivity|]. split.
  { symmetry. eapply Forall2_length. exact Hrw. }
  intros i src Hi.
  destruct (Forall2_lookup_l _ _ _ _ _ Hrw Hi) as (r' & Hr' & (l' & -> & Hl & Hlk)).
  exists l', (SafeReplacement.replaceMat_value (deref h src)).
  split; [exact Hr'|]. split; [exact Hl|]. split; [exact Hlk|]. split; [reflexivity|].
  apply replaceMat_value_valid.
Qed.

Lemma array_slot_rewritten_witness :
  exists scene' h',
    SafeReplacement.sanitizeMaterials (rigged (SlotArray [RMat 0; RNone; RMat 1]))
      [painted; empty_object] = Normal scene' h' /\
    tree_rel (fun d d' =>
      isMesh d = true -> forall rs, material d = SlotArray rs ->
        exists rs', material d' = SlotArray rs' /\ length rs' = length rs /\
          forall i src, rs !! i = Some src ->
            exists l' m', rs' !! i = Some (RMat l') /\
              length [painted; empty_object] <= l' /\ h' !! l' = Some m' /\
              m' = SafeReplacement.replaceMat_value
                     (deref [painted; empty_object] src) /\
              (source_valid (deref [painted; empty_object] src) = true ->
               valid_descriptor m' = true))
      (rigged (SlotArray [RMat 0; RNone; RMat 1])) scene'.
Proof. apply array_slot_rewritten. reflexivity. Defined.

(** C2 as the specification states it fails: an array of two elements, the
    first with a label for a roughness, becomes an array of two materials of
    which the first is no valid descriptor. *)
Lemma array_slot_not_valid :
  exists d' h',
    SafeReplacement.sanitizeMaterials (single true (SlotArray [RMat 0; RNone]))
      [mislabeled] = Normal (Obj d' []) h' /\
    material d' = SlotArray [RMat 1; RMat 2] /\
    array_of_valid h' 2 (material d') = false.
Proof. eexists _, _. split; [reflexivity|]. split; reflexivity. Qed.

(** ** The pass of the auto-centering variant, node by node *)

Lemma old_field_prefix h0 h s f a :
  Forall (fun l => l < length h0) (slot_refs s) -> h0 `prefix_of` h ->
  AutoCentering.old_field h s f a = AutoCentering.old_field h0 s f a.
Proof.
  intros Hs Hp. destruct s as [r|rs]; simpl; [|reflexivity].
  rewrite (deref_prefix h0 h r Hs Hp). reflexivity.
Qed.

Lemma rebuilt_parameters_prefix h0 h s :
  Forall (fun l => l < length h0) (slot_refs s) -> h0 `prefix_of` h ->
  AutoCentering.rebuilt_parameters h s = AutoCentering.rebuilt_parameters h0 s.
Proof.
  intros Hs Hp. unfold AutoCentering.rebuilt_parameters.
  rewrite !(old_field_prefix h0 h s _ _ Hs Hp). reflexivity.
Qed.

Lemma rebuild_child_spec h0 d h :
  refs_below (length h0) d -> h0 `prefix_of` h ->
  exists d' h', AutoCentering.rebuild_child d h = Normal d' h' /\
                h `prefix_of` h' /\ AutoCentering.node_rebuilt h0 h' d d'.
Proof.
  unfold refs_below, AutoCentering.rebuild_child, AutoCentering.node_rebuilt.
  intros Hd Hp. destruct (isMesh d && AutoCentering.slot_truthy (material d)).
  - eexists _, _. split; [reflexivity|]. split; [apply prefix_app_r; reflexivity|].
    exists (length h). repeat split.
    + apply prefix_length, Hp.
    + rewrite (rebuilt_parameters_prefix h0 h _ Hd Hp). apply lookup_snoc_new.
  - exists d, h. repeat split; reflexivity.
Qed.

Lemma node_rebuilt_mono h0 h1 h2 d d' :
  AutoCentering.node_rebuilt h0 h1 d d' -> h1 `prefix_of` h2 ->
  AutoCentering.node_rebuilt h0 h2 d d'.
Proof.
  unfold AutoCentering.node_rebuilt. intros H Hp.
  destruct (isMesh d && AutoCentering.slot_truthy (material d)); [|exact H].
  destruct H as (l' & -> & Hl & Hlk). exists l'. repeat split; [exact Hl|].
  eapply prefix_lookup_Some; eassumption.
Qed.

Lemma rebuild_spec (o : Object3D) (h : Heap) :
  well_formed h o ->
  exists o' h', traverse AutoCentering.rebuild_child o h = Normal o' h' /\
                h `prefix_of` h' /\
                tree_rel (AutoCentering.node_rebuilt h h') o o'.
Proof.
  intros Hwf.
  apply (traverse_spec AutoCentering.rebuild_child h (refs_below (length h))
           (fun d d' h' => AutoCentering.node_rebuilt h h' d d')).
  - intros d h1. apply rebuild_child_spec.
  - intros d d' h1 h2. apply node_rebuilt_mono.
  - exact Hwf.
  - reflexivity.
Qed.

Lemma rebuilt_cloned_spec (scene : Object3D) (w : World) :
  well_formed (heap w) scene ->
  exists inst w', AutoCentering.cloned scene w = (Some inst, w') /\
                  heap w `prefix_of` heap w' /\ nextId w < nextId w' /\
                  tree_rel (AutoCentering.node_instance w w') scene inst.
Proof.
  intros Hwf. unfold AutoCentering.cloned.
  destruct (clone_spec scene (nextId w)) as (c & n & Hc & Hn & Hrel). rewrite Hc.
  assert (Hwf' : well_formed (heap w) c).
  { eapply tree_rel_all_nodes; [|exact Hrel|exact Hwf].
    intros d d' (i & -> & _) Hd. exact Hd. }
  destruct (rebuild_spec c (heap w) Hwf') as (o' & h' & Hrun & Hp & Hrel').
  rewrite Hrun. eexists _, _. split; [reflexivity|]. simpl.
  split; [exact Hp|]. split; [exact Hn|].
  eapply tree_rel_impl; [|exact (tree_rel_compose _ _ _ _ _ Hrel Hrel')].
  intros d d' (y & Hy1 & Hy2). exists y. split; [|assumption].
  apply node_cloned_copied, Hy1.
Qed.

(** ** What the passes leave alone *)

Lemma set_material_same (d : NodeData) : set_material d (material d) = d.
Proof. destruct d; reflexivity. Qed.

Lemma array_map_replaceMat_run rs : forall h,
  exists rs' h', array_map SafeReplacement.replaceMat rs h = Normal rs' h' /\
                 h `prefix_of` h'.
Proof.
  induction rs as [|r rs IH]; intros h.
  - exists [], h. split; reflexivity.
  - destruct (IH (h ++ [SafeReplacement.replaceMat_value (deref h r)]))
      as (rs' & h' & Hrun & Hp).
    exists (RMat (length h) :: rs'), h'. split.
    + simpl. unfold bind at 1. rewrite replaceMat_run. unfold bind at 1.
      rewrite Hrun. reflexivity.
    + etransitivity; [|exact Hp]. apply prefix_app_r. reflexivity.
Qed.

Lemma sanitize_child_frame d h :
  exists d' h', SafeReplacement.sanitize_child d h = Normal d' h' /\
                h `prefix_of` h' /\ only_material_changed d d'.
Proof.
  unfold SafeReplacement.sanitize_child, only_material_changed.
  destruct (isMesh d) eqn:Hm; simpl.
  - destruct (material d) as [[|l]|rs].
    + eexists _, _. split; [reflexivity|]. split; [apply prefix_app_r; reflexivity|].
      split; [eexists; reflexivity | discriminate].
    + eexists _, _. split.
      { unfold try_catch, bind. rewrite replaceMat_run. reflexivity. }
      split; [apply prefix_app_r; reflexivity|].
      split; [eexists; reflexivity | discriminate].
    + destruct (array_map_replaceMat_run rs h) as (rs' & h' & Hrun & Hp).
      eexists _, _. split.
      { unfold try_catch, bind. rewrite Hrun. reflexivity. }
      split; [exact Hp|]. split; [eexists; reflexivity | discriminate].
  - exists d, h. split; [reflexivity|]. split; [reflexivity|].
    split; [|reflexivity]. exists (material d). symmetry. apply set_material_same.
Qed.

Lemma rebuild_child_frame d h :
  exists d' h', AutoCentering.rebuild_child d h = Normal d' h' /\
    h `prefix_of` h' /\ only_material_changed d d' /\
    (isMesh d && AutoCentering.slot_truthy (material d) = false -> d' = d).
Proof.
  unfold AutoCentering.rebuild_child, only_material_changed.
  destruct (isMesh d) eqn:Hm; simpl.
  - destruct (AutoCentering.slot_truthy (material d)) eqn:Ht.
    + eexists _, _. split; [reflexivity|]. split; [apply prefix_app_r; reflexivity|].
      split; [|discriminate]. split; [eexists; reflexivity | discriminate].
    + exists d, h. split; [reflexivity|]. split; [reflexivity|].
      split; [|reflexivity]. split; [|reflexivity].
      exists (material d). symmetry. apply set_material_same.
  - exists d, h. split; [reflexivity|]. split; [reflexivity|].
    split; [|reflexivity]. split; [|reflexivity].
    exists (material d). symmetry. apply set_material_same.
Qed.



(** ** C3: independence of clones *)










(** *** Skeletons *)












(** The same in the auto-centering variant. *)
Lemma rebuilt_clones_share_other_materials :
  exists i1 w1 i2 w2,
    instantiate AutoCenteringVariant Character with_points
      {| heap := [painted; empty_object]; nextId := 3 |} = (Some i1, w1) /\
    instantiate AutoCenteringVariant Character with_points w1 = (Some i2, w2) /\
    ~ independent (heap w2) (materials_of i1) (materials_of i2 ++ materials_of with_points).
Proof.
  eexists _, _, _, _. split; [reflexivity|]. split; [reflexivity|].
  intros H. specialize (H 1 too_rough 1). simpl in H.
  assert (Hne : Some too_rough = Some empty_object) by (apply H; tauto).
  discriminate Hne.
Qed.

(** The skinned mesh of the sample character: the two instances of the
    auto-centering component are bound to the skeleton of the cached scene
    and to its bones, which are no nodes of theirs; those of the
    safe-replacement component have a skeleton each, with their own nodes
    for bones. *)
Example character_clones_and_skeletons :
  (exists i1 w1 i2 w2,
     instantiate AutoCenteringVariant Character skinned
       {| heap := [painted]; nextId := 4 |} = (Some i1, w1) /\
     instantiate AutoCenteringVariant Character skinned w1 = (Some i2, w2) /\
     skeletons_of i1 = [Parsed 0] /\ skeletons_of i2 = [Parsed 0] /\
     skeletons_of skinned = [Parsed 0] /\
     bones_of i1 = [2; 3] /\ bones_of i2 = [2; 3] /\
     ids_of skinned = [0; 1; 2; 3] /\ ids_of i1 = [4; 5; 6; 7] /\
     ids_of i2 = [8; 9; 10; 11]) /\
  (exists i1 w1 i2 w2,
     instantiate SafeVariant Character skinned
       {| heap := [painted]; nextId := 4 |} = (Some i1, w1) /\
     instantiate SafeVariant Character skinned w1 = (Some i2, w2) /\
     skeletons_of i1 = [ClonedFor 5] /\ skeletons_of i2 = [ClonedFor 9] /\
     bones_of i1 = [6; 7] /\ bones_of i2 = [10; 11]).
Proof.
  split; eexists _, _, _, _; (split; [reflexivity|]); (split; [reflexivity|]);
    repeat split.
Qed.

(** ** C10: what the pass leaves alone *)

(** C10: [sanitizeMaterials] always runs to its end; the graph it leaves has
    the hierarchy of the graph it was given, node for node; a node keeps its
    id, name, transform, geometry and kind, only its material slot may differ;
    a node that is no mesh is the same node; and the materials that existed
    before are still in the store, unchanged. *)
Theorem sanitize_changes_only_mesh_materials (obj : Object3D) (h : Heap) :
  exists obj' h',
    SafeReplacement.sanitizeMaterials obj h = Normal obj' h' /\
    h `prefix_of` h' /\
    tree_rel only_material_changed obj obj' /\
    length (nodes obj') = length (nodes obj).
Proof.
  destruct (traverse_spec SafeReplacement.sanitize_child h (fun _ => True)
              (fun d d' _ => only_material_changed d d')) with (o := obj) (h := h)
    as (obj' & h' & Hrun & Hp & Hrel).
  - intros d h1 _ _. apply sanitize_child_frame.
  - intros d d' h1 h2 H _. exact H.
  - apply Forall_all_nodes. apply List.Forall_forall. intros; exact I.
  - reflexivity.
  - exists obj', h'. split; [exact Hrun|]. split; [exact Hp|]. split; [exact Hrel|].
    symmetry. eapply Forall2_length. apply tree_rel_nodes. exact Hrel.
Qed.

(** ** C5: failures stay local *)





(** The failure of the sample: its descriptor becomes the neutral default,
    the next one is rewritten with its own values. *)
Example failure_beside_success :
  exists scene',
    SafeReplacement.sanitizeMaterials
      (single true (SlotArray [RMat 0; RMat 1])) [plain_number_color; painted]
    = Normal scene'
        [plain_number_color; painted;
         MeshStandardMaterial SafeReplacement.catch_parameters;
         {| m_type := "MeshStandardMaterial"; m_color := JColor (Hex 16711680);
            m_map := JTexture 0; m_normalMap := JTexture 1;
            m_roughness := JNum (4 # 5); m_metalness := JNum (1 # 10);
            m_side := DoubleSide; m_transparent := JBool false;
            m_opacity := JNum 1 |}].
Proof. eexists. reflexivity. Qed.

(** ** C6: meshes without a material *)

(** X22. In the safe-replacement variant a mesh without material gets a
    material that is the neutral gray, opaque default and that is newly
    allocated: its address lies past the store the pass started from, whose
    materials are all still there, unchanged. *)
Lemma bare_mesh_gets_gray (scene : Object3D) (h : Heap) :
  stored h scene = true ->
  exists scene' h',
    SafeReplacement.sanitizeMaterials scene h = Normal scene' h' /\
    h `prefix_of` h' /\
    tree_rel (fun d d' =>
      isMesh d = true -> material d = SlotOne RNone ->
      exists l' m', material d' = SlotOne (RMat l') /\
                    length h <= l' /\ h' !! l' = Some m' /\
                    neutral_gray m' = true /\ valid_descriptor m' = true)
      scene scene'.
Proof.
  intros Hst.
  destruct (sanitizeMaterials_spec scene h (stored_well_formed _ _ Hst))
    as (scene' & h' & Hrun & Hp & Hrel).
  exists scene', h'. split; [exact Hrun|]. split; [exact Hp|].
  eapply tree_rel_impl; [|exact Hrel]. clear Hrel Hrun.
  unfold SafeReplacement.node_sanitized. intros d d' H Hm Hs. rewrite Hm, Hs in H.
  destruct H as (l' & -> & Hlo & Hlk).
  exists l', (MeshStandardMaterial SafeReplacement.bare_parameters).
  split; [reflexivity|]. split; [exact Hlo|]. split; [exact Hlk|]. split; reflexivity.
Qed.

(** C6 fails in the auto-centering variant: its traversal tests
    [child.isMesh && child.material] and so leaves a mesh without material
    as it is, allocating nothing. *)
Lemma auto_centering_leaves_bare_mesh :
  traverse AutoCentering.rebuild_child (single true (SlotOne RNone)) []
  = Normal (single true (SlotOne RNone)) [].
Proof. reflexivity. Qed.

(** An array of materials is, in that variant, replaced by one material,
    whose base texture is the [map] method of the array. *)
Lemma auto_centering_collapses_arrays :
  traverse AutoCentering.rebuild_child (single true (SlotArray [RMat 0; RMat 1]))
    [painted; painted]
  = Normal (single true (SlotOne (RMat 2)))
      [painted; painted;
       {| m_type := "MeshStandardMaterial"; m_color := JColor (Hex gray);
          m_map := JFunction "Array.prototype.map"; m_normalMap := JNull;
          m_roughness := JNum (1 # 2); m_metalness := JNum (3 # 10);
          m_side := DoubleSide; m_transparent := JBool false;
          m_opacity := JNum 1 |}].
Proof. reflexivity. Qed.

(** ** C9: textures are shared *)






(** ** C8: the phases of a preview *)

Lemma render_consistent v hasGLB p : consistent hasGLB (render v hasGLB p).
Proof.
  destruct p as [le he ld sc]. unfold render, consistent. simpl.
  destruct le, hasGLB, he, v, ld; simpl; auto.
Qed.

Lemma settle_consistent v hasGLB l p :
  consistent hasGLB p -> consistent hasGLB (settle v hasGLB l p).
Proof.
  intros Hp. unfold settle. destruct (load p); try exact Hp. apply render_consistent.
Qed.

Lemma step_consistent v hasGLB e p :
  consistent hasGLB p -> consistent hasGLB (step v hasGLB e p).
Proof.
  intros Hp. destruct e as [|ok| |]; simpl.
  - apply render_consistent.
  - apply settle_consistent, Hp.
  - destruct (renders_GLB hasGLB p); [|exact Hp].
    unfold consistent. simpl. destruct (loadError p); reflexivity.
  - apply settle_consistent, Hp.
Qed.

Lemma run_consistent v hasGLB es : forall p,
  consistent hasGLB p -> consistent hasGLB (run v hasGLB es p).
Proof.
  induction es as [|e es IH]; intros p Hp; simpl; [exact Hp|].
  apply IH, step_consistent, Hp.
Qed.

Lemma failed_step v hasGLB e p :
  consistent hasGLB p -> screen p = Fallback ->
  screen (step v hasGLB e p) = Fallback.
Proof.
  unfold consistent. intros Hc Hs. rewrite Hs in Hc.
  assert (Hr : forall q, loadError q = loadError p -> hasError q = hasError p ->
                         screen (render v hasGLB q) = Fallback).
  { intros q Hl Hh. unfold render. rewrite Hl, Hh.
    destruct (loadError p); simpl; [reflexivity|].
    destruct hasGLB; simpl; [|reflexivity].
    destruct (hasError p); simpl; [reflexivity|]. discriminate Hc. }
  assert (Hst : forall l, screen (settle v hasGLB l p) = Fallback).
  { intros l. unfold settle. destruct (load p); try exact Hs. apply Hr; reflexivity. }
  destruct e as [|ok| |]; simpl.
  - apply Hr; reflexivity.
  - apply Hst.
  - destruct (renders_GLB hasGLB p); [reflexivity | exact Hs].
  - apply Hst.
Qed.

Lemma failed_run v hasGLB es : forall p,
  consistent hasGLB p -> screen p = Fallback ->
  screen (run v hasGLB es p) = Fallback.
Proof.
  induction es as [|e es IH]; intros p Hc Hs; simpl; [exact Hs|].
  apply IH; [apply step_consistent, Hc | apply failed_step; assumption].
Qed.

Lemma ready_step v hasGLB e p :
  consistent hasGLB p -> screen p = Instance ->
  screen (step v hasGLB e p) = Instance \/ screen (step v hasGLB e p) = Fallback.
Proof.
  unfold consistent. intros Hc Hs. rewrite Hs in Hc.
  destruct Hc as (Hld & Hl & Hh & ->).
  destruct e as [|ok| |]; simpl; unfold settle.
  - left. unfold render. rewrite Hl, Hh, Hld. destruct v; reflexivity.
  - rewrite Hld. left. exact Hs.
  - destruct (renders_GLB true p); [right; reflexivity | left; exact Hs].
  - rewrite Hld. left. exact Hs.
Qed.

Lemma blank_step v hasGLB e p :
  consistent hasGLB p -> screen p = Blank ->
  screen (step v hasGLB e p) = Blank \/ screen (step v hasGLB e p) = Fallback.
Proof.
  intros Hc Hs. destruct p as [le he ld sc]. unfold consistent in Hc. simpl in *.
  subst sc. destruct Hc as (-> & -> & -> & ->).
  destruct e as [|[|]| |], v; cbv; auto.
Qed.

(** C8, as the code has it: a mounted preview changes phase only from
    LOADING to READY, from LOADING to FAILED and from READY to FAILED; once
    FAILED it shows the fallback whatever happens next, never the instance
    again. *)
Theorem preview_phases (v : Variant) (hasGLB : bool) (l : LoadState)
    (es : list Event) (e : Event) :
  let p := run v hasGLB es (mount v hasGLB l) in
  let q := step v hasGLB e p in
  (phase q = phase p \/
   (phase p = LOADING /\ phase q = READY) \/
   (phase p = LOADING /\ phase q = FAILED) \/
   (phase p = READY /\ phase q = FAILED)) /\
  (phase p = FAILED ->
   forall es', phase (run v hasGLB es' p) = FAILED /\
               screen (run v hasGLB es' p) <> Instance).
Proof.
  intros p q.
  assert (Hc : consistent hasGLB p).
  { apply run_consistent, render_consistent. }
  split.
  - unfold phase. destruct (screen p) eqn:Hs.
    + destruct (screen q); auto.
    + destruct (ready_step v hasGLB e p Hc Hs) as [Hq|Hq]; fold q in Hq; rewrite Hq; auto.
    + pose proof (failed_step v hasGLB e p Hc Hs) as Hq. fold q in Hq. rewrite Hq. auto.
    + destruct (blank_step v hasGLB e p Hc Hs) as [Hq|Hq]; fold q in Hq; rewrite Hq; auto.
  - unfold phase. intros Hf es'.
    assert (Hs : screen p = Fallback) by (destruct (screen p); congruence).
    rewrite (failed_run v hasGLB es' p Hc Hs). split; [reflexivity | discriminate].
Qed.

(** C8 as the specification states it fails: a preview that shows the
    instance goes to FAILED when an exception leaves a later render of its
    subtree; the boundary catches it whenever it happens. *)
Lemma ready_preview_can_fail :
  phase (CharacterModel3D SafeVariant "ghost_riley" Loaded) = READY /\
  phase (step SafeVariant (js_in "ghost_riley" CHARACTER_GLB_MAP) Escapes
           (CharacterModel3D SafeVariant "ghost_riley" Loaded)) = FAILED.
Proof. split; reflexivity. Qed.

(** In the safe-replacement variant a load that is still pending at the
    first render is reported as an error: the [catch] around [useGLTF] also
    catches the promise. *)
Example pending_load_is_reported :
  phase (CharacterModel3D SafeVariant "ghost_riley" Pending) = FAILED /\
  phase (CharacterModel3D AutoCenteringVariant "ghost_riley" Pending) = LOADING /\
  phase (step AutoCenteringVariant true (Settles true)
           (CharacterModel3D AutoCenteringVariant "ghost_riley" Pending)) = READY.
Proof. repeat split. Qed.

(** ** C4: ids without an entry *)

(** X21. An id that is neither an entry of the table nor a property every
    object inherits: the preview shows the fallback from its first render on,
    and no render calls [useGLTF]. *)
Lemma unmapped_id_shows_fallback (v : Variant) (table : list (string * string))
    (id : string) (l : LoadState) (es : list Event) :
  entry table id = None -> inherited Object_prototype id = None ->
  let hasGLB := js_in id table in
  screen (run v hasGLB es (mount v hasGLB l)) = Fallback /\
  useGLTF_calls table id (unmounted l) = [] /\
  useGLTF_calls table id (run v hasGLB es (mount v hasGLB l)) = [].
Proof.
  intros He Hi. unfold useGLTF_calls, js_in. rewrite He, Hi. simpl.
  split; [|split; reflexivity].
  apply failed_run; [apply render_consistent | reflexivity].
Qed.

Lemma unmapped_id_shows_fallback_witness :
  let hasGLB := js_in "nobody" CHARACTER_GLB_MAP in
  screen (run SafeVariant hasGLB [Rerender; Settles true]
            (mount SafeVariant hasGLB Pending)) = Fallback /\
  useGLTF_calls CHARACTER_GLB_MAP "nobody" (unmounted Pending) = [] /\
  useGLTF_calls CHARACTER_GLB_MAP "nobody"
    (run SafeVariant hasGLB [Rerender; Settles true]
       (mount SafeVariant hasGLB Pending)) = [].
Proof. apply unmapped_id_shows_fallback; reflexivity. Defined.

(** C4 fails for an id that names a property of [Object.prototype]: the
    tables have no entry for [toString], yet ["toString" in MAP] holds, the
    GLB component is mounted and [useGLTF] is called with the inherited
    function. *)
Lemma inherited_id_is_loaded :
  entry CHARACTER_GLB_MAP "toString" = None /\
  entry WEAPON_GLB_MAP "toString" = None /\
  js_in "toString" CHARACTER_GLB_MAP = true /\
  js_in "toString" WEAPON_GLB_MAP = true /\
  useGLTF_calls CHARACTER_GLB_MAP "toString" (unmounted Pending)
    = [JFunction "toString"] /\
  useGLTF_calls WEAPON_GLB_MAP "toString" (unmounted Pending)
    = [JFunction "toString"] /\
  screen (WeaponModel3D AutoCenteringVariant "toString" Pending) = Interim.
Proof. repeat split. Qed.

(** ** Rotation in exact arithmetic *)

Lemma fold_useFrame_exact rate deltas : forall yaw,
  (fold_left (useFrame_exact rate true) deltas yaw
   == yaw + rate * fold_left Qplus deltas 0)%Q.
Proof.
  assert (Hsum : forall ds a, (fold_left Qplus ds a == a + fold_left Qplus ds 0)%Q).
  { induction ds as [|d ds IH]; intros a; simpl; [ring|].
    rewrite (IH (a + d)%Q), (IH (0 + d)%Q). ring. }
  induction deltas as [|d ds IH]; intros yaw; simpl.
  - ring.
  - rewrite IH. unfold useFrame_exact. rewrite (Hsum ds (0 + d)%Q). ring.
Qed.

(** With exact numbers the yaw after a sequence of frames is the rate times
    the elapsed time, however the time is cut into frames. The components
    compute in binary64, where each product and each sum is rounded. *)
Lemma yaw_exact_arithmetic (rate : Q) (deltas : list Q) :
  (yaw_after_exact rate true deltas == rate * elapsed deltas)%Q.
Proof. unfold yaw_after_exact, elapsed. rewrite fold_useFrame_exact. ring. Qed.

(** ** C7: rotation in binary64 *)

Lemma yaw_after_stays (file : File) (rotate current : bool) (deltas : list float)
    (yaw : float) :
  rotate && current = false -> yaw_after file rotate current deltas yaw = yaw.
Proof.
  intros H. unfold yaw_after, useFrame. rewrite H.
  induction deltas as [|d ds IH]; simpl; [reflexivity | exact IH].
Qed.

Lemma yaw_after_sums (file : File) (deltas : list float) : forall yaw,
  yaw_after file true true deltas yaw
  = fold_left PrimFloat.add
      (List.map (fun delta => (delta * rate file)%float) deltas) yaw.
Proof.
  unfold yaw_after, useFrame. simpl.
  induction deltas as [|d ds IH]; intros yaw; simpl; [reflexivity | apply IH].
Qed.

(** C7, as the code has it: with rotation enabled and the group mounted, the
    yaw after a sequence of frames is the yaw before them plus, frame after
    frame, the product of the frame's delta and the rate (0.4 for characters,
    0.5 for weapons), every product and every sum rounded to binary64 and
    nothing reduced modulo 2 pi; what a sequence of frames does is what its
    parts do one after the other. With rotation disabled, or without the
    group, the yaw stays as it is. Without rounding the same accumulation
    gives the rate times the elapsed time, for every way of cutting the time
    into frames. *)
Theorem yaw_is_rounded_sum (file : File) (rotate current : bool)
    (deltas more : list float) (yaw : float) (times : list Q) :
  yaw_after file rotate current deltas yaw
  = (if rotate && current
     then fold_left PrimFloat.add
            (List.map (fun delta => (delta * rate file)%float) deltas) yaw
     else yaw) /\
  yaw_after file rotate current (deltas ++ more) yaw
  = yaw_after file rotate current more (yaw_after file rotate current deltas yaw) /\
  (yaw_after_exact (rate_exact file) true times == rate_exact file * elapsed times)%Q.
Proof.
  split; [|split].
  - destruct (rotate && current) eqn:H.
    + apply andb_true_iff in H. destruct H as [-> ->]. apply yaw_after_sums.
    + apply yaw_after_stays, H.
  - unfold yaw_after. apply fold_left_app.
  - unfold yaw_after_exact, elapsed. rewrite fold_useFrame_exact. ring.
Qed.

(** C7 as the specification states it fails: the yaw depends on how the time
    is cut into frames. One second in one frame and in eight frames of an
    eighth (both sum to one second, in binary64 as well) turn a character by
    different angles, neither of which is the rate times the time; the same
    three frames in two orders turn a weapon by different angles. *)
Lemma yaw_depends_on_frames :
  elapsed64 [1%float] = 1%float /\
  elapsed64 (repeat 0.125%float 8) = 1%float /\
  yaw_after Character true true [1%float] 0 = 0.40000000000000002%float /\
  yaw_after Character true true (repeat 0.125%float 8) 0 = 0.39999999999999997%float /\
  PrimFloat.eqb (yaw_after Character true true [1%float] 0)
                (yaw_after Character true true (repeat 0.125%float 8) 0) = false /\
  Permutation [0.1; 0.2; 0.3]%float [0.3; 0.2; 0.1]%float /\
  PrimFloat.eqb (yaw_after Weapon true true [0.1; 0.2; 0.3]%float 0)
                (yaw_after Weapon true true [0.3; 0.2; 0.1]%float 0) = false.
Proof.
  repeat split; try reflexivity.
  change ([0.1; 0.2; 0.3]%float) with (rev [0.3; 0.2; 0.1]%float).
  symmetry. apply Permutation_rev.
Qed.

(** * Further properties *)

(** ** The rewrite of the safe-replacement variant *)

Lemma keep_null_or_truthy (v : JsVal) :
  null_or_truthy v = true -> setValue JNull (js_or v JNull) = v.
Proof.
  unfold js_or. destruct v; simpl; try discriminate; try reflexivity.
  - destruct b; [reflexivity | discriminate].
  - intros H. rewrite H. reflexivity.
  - intros H. rewrite H. reflexivity.
Qed.

Lemma keep_false_or_truthy (v : JsVal) :
  false_or_truthy v = true -> setValue (JBool false) (js_or v (JBool false)) = v.
Proof.
  unfold js_or. destruct v; simpl; try discriminate; try reflexivity.
  - destruct b; reflexivity.
  - intros H. rewrite H. reflexivity.
  - intros H. rewrite H. reflexivity.
Qed.

Lemma keep_not_nullish (cur d v : JsVal) :
  not_nullish v = true -> setValue cur (if not_nullish v then v else d) = v.
Proof. destruct v; simpl; try discriminate; reflexivity. Qed.

(** A settled material is a fixed point of the rewrite. *)
Lemma settled_fixed (m : Material) :
  settled m -> SafeReplacement.replaceMat_value (Some m) = m.
Proof.
  destruct m as [ty c mp nm r me sd tr op]. unfold settled. simpl.
  intros (-> & Hc & Hmp & Hnm & Hr & Hme & -> & Htr & Hop).
  destruct c; try discriminate Hc.
  unfold SafeReplacement.replaceMat_value, SafeReplacement.replaceMat_parameters. simpl.
  unfold MeshStandardMaterial. simpl.
  rewrite (keep_null_or_truthy _ Hmp), (keep_null_or_truthy _ Hnm),
    (keep_false_or_truthy _ Htr), (keep_not_nullish _ _ _ Hr),
    (keep_not_nullish _ _ _ Hme), (keep_not_nullish _ _ _ Hop).
  reflexivity.
Qed.

Lemma js_or_null_settled (v : JsVal) :
  null_or_truthy (setValue JNull (js_or v JNull)) = true.
Proof.
  unfold js_or. destruct (truthy v) eqn:Ht; [|reflexivity].
  destruct v; simpl in *; try discriminate; try reflexivity; assumption.
Qed.

Lemma js_or_false_settled (v : JsVal) :
  false_or_truthy (setValue (JBool false) (js_or v (JBool false))) = true.
Proof.
  unfold js_or. destruct (truthy v) eqn:Ht; [|reflexivity].
  destruct v; simpl in *; try discriminate; try reflexivity; try assumption.
  rewrite Ht. reflexivity.
Qed.

Lemma default_not_nullish (cur d v : JsVal) :
  not_nullish cur = true -> not_nullish d = true ->
  not_nullish (setValue cur (if not_nullish v then v else d)) = true.
Proof. intros Hc Hd. destruct v, d; simpl in *; try discriminate; reflexivity. Qed.

(** Whatever the source, the rewrite gives a settled material. *)
Lemma replaceMat_value_settled (mat : option Material) :
  settled (SafeReplacement.replaceMat_value mat).
Proof.
  unfold SafeReplacement.replaceMat_value, SafeReplacement.replaceMat_parameters.
  destruct (if truthy (field m_color mat) then call_clone (field m_color mat)
            else inr (JColor (Hex gray))) as [e|c].
  { repeat split. }
  unfold settled. simpl.
  split; [reflexivity|]. split; [reflexivity|].
  split; [apply js_or_null_settled|]. split; [apply js_or_null_settled|].
  split; [apply default_not_nullish; reflexivity|].
  split; [apply default_not_nullish; reflexivity|].
  split; [reflexivity|]. split; [apply js_or_false_settled|].
  apply default_not_nullish; reflexivity.
Qed.

Lemma settled_whitelisted (m : Material) : settled m -> whitelisted m = true.
Proof.
  unfold settled, whitelisted. intros (-> & Hc & _ & _ & _ & _ & -> & _).
  rewrite Hc. reflexivity.
Qed.

(** X1. Whatever the materials of the loaded asset are, every slot element
    of every mesh of an instance of the safe-replacement variant references
    a double-sided [MeshStandardMaterial] whose colour is a colour. *)
Theorem instance_surfaces_whitelisted (file : File) (scene : Object3D) (w : World) :
  stored (heap w) scene = true ->
  exists inst w', SafeReplacement.cloned file scene w = (Some inst, w') /\
                  surfaces_all whitelisted (heap w') inst = true.
Proof.
  intros Hst.
  destruct (cloned_spec file scene w (stored_well_formed _ _ Hst))
    as (inst & w' & Hrun & _ & _ & Hrel).
  exists inst, w'. split; [exact Hrun|].
  apply surfaces_all_intro. intros r Hr.
  destruct (instance_surface_elements (fun m => whitelisted m = true) w w' scene inst Hrel)
    with (r := r) as (l' & m' & Heq & _ & Hlk & Hok);
    [reflexivity | reflexivity | | exact Hr | eauto].
  intros l _. apply settled_whitelisted, replaceMat_value_settled.
Qed.

Lemma instance_surfaces_whitelisted_witness :
  exists inst w',
    SafeReplacement.cloned Weapon (rigged (SlotArray [RMat 0; RNone; RMat 1; RMat 2]))
      {| heap := [mislabeled; plain_number_color; empty_object]; nextId := 3 |}
      = (Some inst, w') /\
    surfaces_all whitelisted (heap w') inst = true.
Proof. apply instance_surfaces_whitelisted. reflexivity. Defined.

(** X2. Rewriting a rewritten material changes nothing: [replaceMat] applied
    to the material it has just built allocates a second material that is
    equal to the first, field by field. *)
Theorem replaceMat_twice (r : MatRef) (h : Heap) :
  exists l1 l2 h1 h2 m,
    SafeReplacement.replaceMat r h = Normal (RMat l1) h1 /\
    SafeReplacement.replaceMat (RMat l1) h1 = Normal (RMat l2) h2 /\
    l1 <> l2 /\ h2 !! l1 = Some m /\ h2 !! l2 = Some m.
Proof.
  set (m := SafeReplacement.replaceMat_value (deref h r)).
  exists (length h), (length (h ++ [m])), (h ++ [m]), ((h ++ [m]) ++ [m]), m.
  assert (H1 : deref (h ++ [m]) (RMat (length h)) = Some m) by apply lookup_snoc_new.
  split; [apply replaceMat_run|]. split.
  - rewrite replaceMat_run, H1.
    rewrite (settled_fixed m (replaceMat_value_settled _)). reflexivity.
  - split; [rewrite length_app; simpl; lia|]. split.
    + apply (prefix_lookup_Some (h ++ [m])); [exact H1|].
      apply prefix_app_r. reflexivity.
    + apply lookup_snoc_new.
Qed.

(** ** One material per slot element *)

Lemma surface_elements_Obj d cs :
  surface_elements (Obj d cs) =
  (if isMesh d then slot_elements (material d) else []) ++
  concat (List.map surface_elements cs).
Proof.
  unfold surface_elements. simpl.
  assert (Hcs : concat (List.map (fun x => slot_elements (material x))
                  (List.filter isMesh (concat (List.map nodes cs)))) =
                concat (List.map (fun o => concat (List.map
                   (fun x => slot_elements (material x))
                   (List.filter isMesh (nodes o)))) cs)).
  { induction cs as [|c cs IH]; simpl; [reflexivity|].
    rewrite List.filter_app, List.map_app, List.concat_app, IH. reflexivity. }
  destruct (isMesh d); simpl; rewrite Hcs; reflexivity.
Qed.

Lemma array_map_replaceMat_seq rs : forall h,
  exists ms, array_map SafeReplacement.replaceMat rs h
             = Normal (List.map RMat (seq (length h) (length rs))) (h ++ ms) /\
             length ms = length rs.
Proof.
  induction rs as [|r rs IH]; intros h.
  - exists []. rewrite app_nil_r. split; reflexivity.
  - destruct (IH (h ++ [SafeReplacement.replaceMat_value (deref h r)]))
      as (ms & Hrun & Hlen).
    exists (SafeReplacement.replaceMat_value (deref h r) :: ms). split.
    + simpl. unfold bind at 1. rewrite replaceMat_run. unfold bind at 1.
      rewrite Hrun. rewrite length_app. simpl. rewrite Nat.add_1_r.
      rewrite <- app_assoc. reflexivity.
    + simpl. rewrite Hlen. reflexivity.
Qed.

Lemma sanitize_child_seq d h :
  exists d' ms, SafeReplacement.sanitize_child d h = Normal d' (h ++ ms) /\
    (if isMesh d' then slot_elements (material d') else [])
    = List.map RMat (seq (length h) (length ms)).
Proof.
  unfold SafeReplacement.sanitize_child. destruct (isMesh d) eqn:Hm; simpl.
  - destruct (material d) as [[|l]|rs].
    + eexists _, [_]. split; [reflexivity|]. simpl. rewrite Hm. reflexivity.
    + eexists _, [_]. split.
      { unfold try_catch, bind. rewrite replaceMat_run. reflexivity. }
      simpl. rewrite Hm. reflexivity.
    + destruct (array_map_replaceMat_seq rs h) as (ms & Hrun & Hlen).
      eexists _, ms. split.
      { unfold try_catch, bind. rewrite Hrun. reflexivity. }
      simpl. rewrite Hm, Hlen. reflexivity.
  - exists d, []. rewrite app_nil_r. split; [reflexivity|]. rewrite Hm. reflexivity.
Qed.

Lemma sanitizeMaterials_seq o : forall h,
  exists o' ms, SafeReplacement.sanitizeMaterials o h = Normal o' (h ++ ms) /\
    surface_elements o' = List.map RMat (seq (length h) (length ms)).
Proof.
  unfold SafeReplacement.sanitizeMaterials.
  induction o as [d cs IH] using Object3D_ind'. intros h.
  destruct (sanitize_child_seq d h) as (d' & ms0 & Hcb & Hel).
  assert (Hch : forall h1, exists cs' ms,
            traverse_children SafeReplacement.sanitize_child cs h1 = Normal cs' (h1 ++ ms) /\
            concat (List.map surface_elements cs')
            = List.map RMat (seq (length h1) (length ms))).
  { clear Hcb Hel. induction IH as [|c l Hc _ IHl]; intros h1.
    - exists [], []. rewrite app_nil_r. split; reflexivity.
    - destruct (Hc h1) as (c' & ms1 & Hrun & Hs1).
      destruct (IHl (h1 ++ ms1)) as (l' & ms2 & Hrun' & Hs2).
      exists (c' :: l'), (ms1 ++ ms2). split.
      + simpl. unfold bind at 1. rewrite Hrun. unfold bind at 1.
        fold (traverse_children SafeReplacement.sanitize_child). rewrite Hrun'.
        rewrite <- app_assoc. reflexivity.
      + simpl. rewrite Hs1, Hs2. rewrite !length_app, seq_app, List.map_app.
        reflexivity. }
  destruct (Hch (h ++ ms0)) as (cs' & ms1 & Hrun & Hs).
  exists (Obj d' cs'), (ms0 ++ ms1). split.
  - rewrite traverse_Obj. unfold bind at 1. rewrite Hcb. unfold bind at 1.
    rewrite Hrun. rewrite <- app_assoc. reflexivity.
  - rewrite surface_elements_Obj, Hel, Hs.
    rewrite !length_app, seq_app, List.map_app. reflexivity.
Qed.

(** X3. The pass of the safe-replacement variant allocates exactly one
    material for every slot element of every mesh, in traversal order: after
    it the slot elements of the meshes are the consecutive addresses that
    follow the old store. So no two surfaces, and no two elements of an
    array, share a material object afterwards, even where the source used
    one material in several places. *)
Theorem one_material_per_slot_element (o : Object3D) (h : Heap) :
  exists o' ms,
    SafeReplacement.sanitizeMaterials o h = Normal o' (h ++ ms) /\
    surface_elements o' = List.map RMat (seq (length h) (length ms)) /\
    length ms = length (surface_elements o') /\
    NoDup (surface_elements o').
Proof.
  destruct (sanitizeMaterials_seq o h) as (o' & ms & Hrun & Hs).
  exists o', ms. split; [exact Hrun|]. split; [exact Hs|]. split.
  - rewrite Hs, length_map, length_seq. reflexivity.
  - rewrite Hs.
    assert (Hinj : Inj eq eq RMat) by (intros a b Hab; congruence).
    apply (NoDup_fmap_2 RMat). apply NoDup_seq.
Qed.

(** Two meshes that reference the same material come out with one each. *)
Example shared_material_is_split :
  exists o' h',
    SafeReplacement.sanitizeMaterials
      (Obj {| id := 0; name := "root"; transform := []; geometry := None;
              isMesh := false; material := SlotOne RNone;
         skeleton := None |}
         [single true (SlotOne (RMat 0)); single true (SlotOne (RMat 0))])
      [painted] = Normal o' h' /\
    materials_of o' = [1; 2] /\ h' !! 1 = h' !! 2.
Proof. eexists _, _. split; [reflexivity|]. split; reflexivity. Qed.

(** ** The two variants side by side *)

Lemma color_agrees (c : JsVal) :
  falsy_or is_color c = true ->
  (if truthy c then call_clone c else inr (JColor (Hex gray)))
  = inr (js_or c (JColor (Hex gray))).
Proof.
  unfold falsy_or, js_or. destruct (truthy c) eqn:Ht; simpl; [|reflexivity].
  destruct c; try discriminate. reflexivity.
Qed.

(** X4. For a material whose colour is missing or a [THREE.Color], the
    material the auto-centering traversal builds and the one [replaceMat]
    builds have the same type, colour, textures, roughness, metalness and
    side. The auto-centering one is always opaque; the two are equal when the
    source is neither transparent nor carries an opacity. *)
Theorem variants_agree (h : Heap) (l : nat) (m : Material) :
  h !! l = Some m ->
  falsy_or is_color (m_color m) = true ->
  let a := MeshStandardMaterial (AutoCentering.rebuilt_parameters h (SlotOne (RMat l))) in
  let s := SafeReplacement.replaceMat_value (Some m) in
  m_type a = m_type s /\ m_color a = m_color s /\ m_map a = m_map s /\
  m_normalMap a = m_normalMap s /\ m_roughness a = m_roughness s /\
  m_metalness a = m_metalness s /\ m_side a = m_side s /\
  m_transparent a = JBool false /\ m_opacity a = JNum 1 /\
  (truthy (m_transparent m) = false -> not_nullish (m_opacity m) = false -> a = s).
Proof.
  intros Hl Hc a s. subst a s.
  unfold AutoCentering.rebuilt_parameters, AutoCentering.old_field,
    SafeReplacement.replaceMat_value, SafeReplacement.replaceMat_parameters.
  change (deref h (RMat l)) with (h !! l). rewrite Hl. simpl field.
  rewrite (color_agrees _ Hc). unfold js_coalesce, MeshStandardMaterial. simpl.
  repeat split. intros Ht Ho. rewrite Ho. unfold js_or. rewrite Ht. reflexivity.
Qed.

Lemma variants_agree_witness :
  let a := MeshStandardMaterial
             (AutoCentering.rebuilt_parameters [painted] (SlotOne (RMat 0))) in
  let s := SafeReplacement.replaceMat_value (Some painted) in
  m_type a = m_type s /\ m_color a = m_color s /\ m_map a = m_map s /\
  m_normalMap a = m_normalMap s /\ m_roughness a = m_roughness s /\
  m_metalness a = m_metalness s /\ m_side a = m_side s /\
  m_transparent a = JBool false /\ m_opacity a = JNum 1 /\
  (truthy (m_transparent painted) = false ->
   not_nullish (m_opacity painted) = false -> a = s).
Proof. apply (variants_agree [painted] 0 painted); reflexivity. Defined.

(** ** The auto-centering traversal *)

Lemma rebuilt_mesh_materials_all (P : Material -> Prop) w w' scene inst :
  tree_rel (AutoCentering.node_instance w w') scene inst ->
  (forall s, P (MeshStandardMaterial (AutoCentering.rebuilt_parameters (heap w) s))) ->
  forall l', In l' (mesh_materials inst) -> exists m, heap w' !! l' = Some m /\ P m.
Proof.
  intros Hrel HP. apply tree_rel_nodes in Hrel.
  unfold mesh_materials. induction Hrel as [|d d' ds ds' Hd _ IH]; intros l' Hl'.
  - destruct Hl'.
  - destruct Hd as (c & (i & sk & -> & _) & Hs). simpl in Hl'.
    unfold AutoCentering.node_rebuilt in Hs. simpl in Hs.
    destruct (isMesh d) eqn:Hm; simpl in Hs.
    + destruct (AutoCentering.slot_truthy (material d)) eqn:Ht.
      * destruct Hs as (l0 & -> & Hl0 & Hlk). simpl in Hl'. rewrite Hm in Hl'.
        simpl in Hl'. destruct Hl' as [<-|Hl']; [eauto|]. apply IH, Hl'.
      * subst d'. simpl in Hl'. rewrite Hm in Hl'. simpl in Hl'.
        destruct (material d) as [[|l0]|rs]; try discriminate. simpl in Hl'.
        apply IH, Hl'.
    + subst d'. simpl in Hl'. rewrite Hm in Hl'. apply IH, Hl'.
Qed.

(** X5. In the auto-centering variant every material of a mesh of an
    instance is an opaque, double-sided [MeshStandardMaterial]: the
    traversal passes neither [transparent] nor [opacity] on, so the
    transparency of the source is lost. *)
Theorem rebuilt_materials_are_opaque (scene : Object3D) (w : World) :
  stored (heap w) scene = true ->
  exists inst w', AutoCentering.cloned scene w = (Some inst, w') /\
                  materials_all (fun m => opaque m && whitelisted m) (heap w') inst = true.
Proof.
  intros Hst.
  destruct (rebuilt_cloned_spec scene w (stored_well_formed _ _ Hst))
    as (inst & w' & Hrun & _ & _ & Hrel).
  exists inst, w'. split; [exact Hrun|].
  unfold materials_all. apply forallb_forall. intros l' Hl'.
  destruct (rebuilt_mesh_materials_all (fun m => opaque m && whitelisted m = true)
              w w' scene inst Hrel) with (l' := l') as (m & -> & Hm);
    [intros s; reflexivity | exact Hl' | exact Hm].
Qed.

(** A glass-like source: transparent, with an opacity of 0.3. *)
Lemma rebuilt_materials_are_opaque_witness :
  exists inst w',
    AutoCentering.cloned (rigged (SlotOne (RMat 0)))
      {| heap := [ {| m_type := "MeshPhysicalMaterial"; m_color := JColor (Hex 255);
                      m_map := JNull; m_normalMap := JNull;
                      m_roughness := JNum 0; m_metalness := JNum 0;
                      m_side := FrontSide; m_transparent := JBool true;
                      m_opacity := JNum (3 # 10) |} ];
         nextId := 3 |} = (Some inst, w') /\
    materials_all (fun m => opaque m && whitelisted m) (heap w') inst = true.
Proof. apply rebuilt_materials_are_opaque. reflexivity. Defined.

(** X6. The auto-centering traversal has no case for material arrays: a
    mesh whose slot holds an array, of whatever length and content, is given
    one material instead, gray with the default roughness and metalness, and
    with the array's [map] method as its base texture. *)
Theorem rebuilt_arrays_collapse (scene : Object3D) (h : Heap) :
  stored h scene = true ->
  exists scene' h',
    traverse AutoCentering.rebuild_child scene h = Normal scene' h' /\
    tree_rel (fun d d' =>
      isMesh d = true -> forall rs, material d = SlotArray rs ->
        exists l' m', material d' = SlotOne (RMat l') /\ length h <= l' /\
          h' !! l' = Some m' /\
          m_map m' = JFunction "Array.prototype.map" /\
          m_color m' = JColor (Hex gray) /\ m_normalMap m' = JNull /\
          m_roughness m' = JNum (1 # 2) /\ m_metalness m' = JNum (3 # 10))
      scene scene'.
Proof.
  intros Hst.
  destruct (rebuild_spec scene h (stored_well_formed _ _ Hst))
    as (scene' & h' & Hrun & _ & Hrel).
  exists scene', h'. split; [exact Hrun|].
  eapply tree_rel_impl; [|exact Hrel]. clear Hrel Hrun.
  unfold AutoCentering.node_rebuilt. intros d d' H Hm rs Hrs.
  rewrite Hm, Hrs in H. simpl in H. destruct H as (l' & -> & Hl & Hlk).
  eexists l', _. split; [reflexivity|]. split; [exact Hl|]. split; [exact Hlk|].
  repeat split.
Qed.

Lemma rebuilt_arrays_collapse_witness :
  exists scene' h',
    traverse AutoCentering.rebuild_child (rigged (SlotArray [RMat 0; RMat 1]))
      [painted; too_rough] = Normal scene' h' /\
    tree_rel (fun d d' =>
      isMesh d = true -> forall rs, material d = SlotArray rs ->
        exists l' m', material d' = SlotOne (RMat l') /\
          length [painted; too_rough] <= l' /\
          h' !! l' = Some m' /\
          m_map m' = JFunction "Array.prototype.map" /\
          m_color m' = JColor (Hex gray) /\ m_normalMap m' = JNull /\
          m_roughness m' = JNum (1 # 2) /\ m_metalness m' = JNum (3 # 10))
      (rigged (SlotArray [RMat 0; RMat 1])) scene'.
Proof. apply rebuilt_arrays_collapse. reflexivity. Defined.

(** X7. The auto-centering traversal always runs to its end and changes
    nothing but the material slot of meshes that have a material: the
    hierarchy is kept node for node, a node keeps its id, name, transform,
    geometry and kind, a node that is no mesh or a mesh without material is
    left exactly as it is, and the materials that existed before are still in
    the store, unchanged. *)
Theorem rebuild_changes_only_mesh_materials (obj : Object3D) (h : Heap) :
  exists obj' h',
    traverse AutoCentering.rebuild_child obj h = Normal obj' h' /\
    h `prefix_of` h' /\
    tree_rel (fun d d' =>
      only_material_changed d d' /\
      (isMesh d && AutoCentering.slot_truthy (material d) = false -> d' = d))
      obj obj' /\
    length (nodes obj') = length (nodes obj).
Proof.
  destruct (traverse_spec AutoCentering.rebuild_child h (fun _ => True)
              (fun d d' _ => only_material_changed d d' /\
                 (isMesh d && AutoCentering.slot_truthy (material d) = false -> d' = d)))
    with (o := obj) (h := h) as (obj' & h' & Hrun & Hp & Hrel).
  - intros d h1 _ _. destruct (rebuild_child_frame d h1) as (d' & h' & H1 & H2 & H3 & H4).
    exists d', h'. auto.
  - intros d d' h1 h2 H _. exact H.
  - apply Forall_all_nodes. apply List.Forall_forall. intros; exact I.
  - reflexivity.
  - exists obj', h'. split; [exact Hrun|]. split; [exact Hp|]. split; [exact Hrel|].
    symmetry. eapply Forall2_length. apply tree_rel_nodes. exact Hrel.
Qed.

(** ** What an instance keeps of the scene *)

Lemma safe_instance_shape w w' d d' :
  SafeReplacement.node_instance w w' d d' -> same_shape d d'.
Proof.
  intros (c & (i & sk & -> & _) & Hs). unfold SafeReplacement.node_sanitized in Hs.
  simpl in Hs. unfold same_shape. destruct (isMesh d) eqn:Hm.
  - destruct (material d) as [[|l]|rs].
    + destruct Hs as (l' & -> & _). simpl. auto.
    + destruct Hs as (r' & -> & _). simpl. auto.
    + destruct Hs as (rs' & -> & _). simpl. auto.
  - subst d'. simpl. auto.
Qed.

Lemma rebuilt_instance_shape w w' d d' :
  AutoCentering.node_instance w w' d d' -> same_shape d d'.
Proof.
  intros (c & (i & sk & -> & _) & Hs). unfold AutoCentering.node_rebuilt in Hs.
  simpl in Hs. unfold same_shape.
  destruct (isMesh d && AutoCentering.slot_truthy (material d)).
  - destruct Hs as (l' & -> & _). simpl. auto.
  - subst d'. simpl. auto.
Qed.

(** X8. In both variants the instance a preview builds has the hierarchy of
    the cached scene, node for node, and every node has the name, transform,
    geometry and kind of the scene's node; the materials of the cached scene
    are still in the store, unchanged. *)
Theorem instance_keeps_shape (v : Variant) (file : File) (scene : Object3D)
    (w : World) :
  stored (heap w) scene = true ->
  exists inst w', instantiate v file scene w = (Some inst, w') /\
                  tree_rel same_shape scene inst /\
                  length (nodes inst) = length (nodes scene) /\
                  heap w `prefix_of` heap w'.
Proof.
  intros Hst. pose proof (stored_well_formed _ _ Hst) as Hwf. destruct v; simpl.
  - destruct (cloned_spec file scene w Hwf) as (inst & w' & Hrun & Hp & _ & Hrel).
    assert (Hsh : tree_rel same_shape scene inst).
    { eapply tree_rel_impl; [|exact Hrel]. apply safe_instance_shape. }
    exists inst, w'. split; [exact Hrun|]. split; [exact Hsh|]. split; [|exact Hp].
    symmetry. eapply Forall2_length. apply tree_rel_nodes. exact Hsh.
  - destruct (rebuilt_cloned_spec scene w Hwf) as (inst & w' & Hrun & Hp & _ & Hrel).
    assert (Hsh : tree_rel same_shape scene inst).
    { eapply tree_rel_impl; [|exact Hrel]. apply rebuilt_instance_shape. }
    exists inst, w'. split; [exact Hrun|]. split; [exact Hsh|]. split; [|exact Hp].
    symmetry. eapply Forall2_length. apply tree_rel_nodes. exact Hsh.
Qed.

Lemma instance_keeps_shape_witness :
  exists inst w',
    instantiate AutoCenteringVariant Weapon with_points
      {| heap := [painted; empty_object]; nextId := 3 |} = (Some inst, w') /\
    tree_rel same_shape with_points inst /\
    length (nodes inst) = length (nodes with_points) /\
    heap {| heap := [painted; empty_object]; nextId := 3 |} `prefix_of` heap w'.
Proof. apply instance_keeps_shape. reflexivity. Defined.

(** ** What a preview shows *)

Lemma render_reflects v hasGLB p : reflects v hasGLB (render v hasGLB p).
Proof.
  destruct p as [le he ld sc]. unfold reflects, render. simpl.
  destruct le, hasGLB, he, v, ld; simpl; repeat split; auto; discriminate.
Qed.

Lemma step_reflects v hasGLB e p :
  reflects v hasGLB p -> reflects v hasGLB (step v hasGLB e p).
Proof.
  intros Hp. destruct e as [|ok| |]; simpl; unfold settle.
  - apply render_reflects.
  - destruct (load p); try exact Hp. apply render_reflects.
  - destruct (renders_GLB hasGLB p); [|exact Hp].
    unfold reflects. simpl. repeat split; discriminate.
  - destruct (load p); try exact Hp. apply render_reflects.
Qed.

Lemma run_reflects v hasGLB es : forall p,
  reflects v hasGLB p -> reflects v hasGLB (run v hasGLB es p).
Proof.
  induction es as [|e es IH]; intros p Hp; simpl; [exact Hp|].
  apply IH, step_reflects, Hp.
Qed.

Lemma js_in_true id table :
  js_in id table = true ->
  entry table id <> None \/ inherited Object_prototype id <> None.
Proof.
  unfold js_in. destruct (entry table id); [left; discriminate|].
  destruct (inherited Object_prototype id); [right; discriminate | discriminate].
Qed.

(** X9. What a mounted preview shows agrees with the loader. The instance is
    on screen only when [id in MAP] holds (the id is a key of the table or
    the name of a property the table inherits from [Object.prototype]), the
    asset is loaded with a scene and no error is recorded. Once the load has
    failed the fallback is on screen. The placeholder of [Suspense] is on
    screen only in the auto-centering variant, with [id in MAP], while the
    load is pending. Nothing at all is on screen only in the safe-replacement
    variant, for an asset without a scene, with no error recorded. *)
Theorem screen_reflects_load (v : Variant) (table : list (string * string))
    (id : string) (l : LoadState) (es : list Event) :
  let p := run v (js_in id table) es (mount v (js_in id table) l) in
  (screen p = Instance ->
   (entry table id <> None \/ inherited Object_prototype id <> None) /\
   load p = Loaded /\ loadError p = false /\ hasError p = false) /\
  (load p = Failed -> screen p = Fallback) /\
  (screen p = Interim ->
   v = AutoCenteringVariant /\ js_in id table = true /\ load p = Pending) /\
  (screen p = Blank ->
   v = SafeVariant /\ load p = NoScene /\ loadError p = false /\ hasError p = false).
Proof.
  intros p.
  assert (Hc : consistent (js_in id table) p) by apply run_consistent, render_consistent.
  assert (Hr : reflects v (js_in id table) p) by apply run_reflects, render_reflects.
  destruct Hr as (Hf & Hi & Hb). unfold consistent in Hc.
  split; [|split; [exact Hf | split; [exact Hi|]]].
  - intros Hs. rewrite Hs in Hc. destruct Hc as (Hld & Hl & Hh & Hin).
    split; [apply js_in_true, Hin | auto].
  - intros Hs. rewrite Hs in Hc. destruct Hc as (Hld & Hl & Hh & _). auto.
Qed.

Lemma no_scene_run v hasGLB es : forall p,
  consistent hasGLB p -> screen p = Blank \/ screen p = Fallback ->
  screen (run v hasGLB es p) = Blank \/ screen (run v hasGLB es p) = Fallback.
Proof.
  induction es as [|e es IH]; intros p Hc Hs; simpl; [exact Hs|].
  apply IH; [apply step_consistent, Hc|].
  destruct Hs as [Hs|Hs]; [apply blank_step; assumption|].
  right. apply failed_step; assumption.
Qed.

(** X10. In the safe-replacement variant the placeholder of [Suspense] is
    never on screen, and a preview whose asset is not yet loaded at its first
    render shows the fallback from then on, whatever happens later, a
    successful load included: the [catch] around [useGLTF] takes the pending
    promise for an error. With an asset without a scene the preview shows
    nothing or, after an exception, the fallback. *)
Theorem safe_preview_never_waits (hasGLB : bool) (l : LoadState) (es : list Event) :
  let p := run SafeVariant hasGLB es (mount SafeVariant hasGLB l) in
  screen p <> Interim /\
  match l with
  | Loaded => True
  | Pending | Failed => screen p = Fallback
  | NoScene => screen p = Blank \/ screen p = Fallback
  end.
Proof.
  intros p. split.
  - intros Hs.
    destruct (run_reflects SafeVariant hasGLB es _
                (render_reflects SafeVariant hasGLB (unmounted l))) as (_ & Hi & _).
    destruct (Hi Hs) as (Hv & _). discriminate Hv.
  - destruct l; [ | exact I | | ].
    + apply failed_run; [apply render_consistent|]. destruct hasGLB; reflexivity.
    + apply failed_run; [apply render_consistent|]. destruct hasGLB; reflexivity.
    + apply no_scene_run; [apply render_consistent|]. destruct hasGLB; auto.
Qed.

Lemma failed_calls_nothing table id p :
  consistent (js_in id table) p -> screen p = Fallback ->
  useGLTF_calls table id p = [].
Proof.
  unfold consistent, useGLTF_calls, renders_GLB. intros Hc Hs. rewrite Hs in Hc.
  destruct (js_in id table), (loadError p), (hasError p); simpl in *;
    try reflexivity; discriminate.
Qed.

(** X11. No retry: once a preview shows the fallback in place of the
    instance, no later render calls [useGLTF], whatever happens. *)
Theorem failed_preview_never_loads (v : Variant) (table : list (string * string))
    (id : string) (l : LoadState) (es es' : list Event) :
  screen (run v (js_in id table) es (mount v (js_in id table) l)) = Fallback ->
  useGLTF_calls table id
    (run v (js_in id table) es' (run v (js_in id table) es (mount v (js_in id table) l)))
  = [].
Proof.
  intros Hs.
  assert (Hc : consistent (js_in id table)
                 (run v (js_in id table) es (mount v (js_in id table) l))).
  { apply run_consistent, render_consistent. }
  apply failed_calls_nothing.
  - apply run_consistent, Hc.
  - apply failed_run; assumption.
Qed.

Lemma failed_preview_never_loads_witness :
  useGLTF_calls WEAPON_GLB_MAP "k416"
    (run AutoCenteringVariant (js_in "k416" WEAPON_GLB_MAP) [Rerender; Settles true; Rerender]
       (run AutoCenteringVariant (js_in "k416" WEAPON_GLB_MAP) [Rerender; Settles false]
          (mount AutoCenteringVariant (js_in "k416" WEAPON_GLB_MAP) Pending)))
  = [].
Proof. apply failed_preview_never_loads. reflexivity. Defined.

Lemma ready_step_no_escape v hasGLB e p :
  consistent hasGLB p -> screen p = Instance ->
  match e with Escapes => false | _ => true end = true ->
  screen (step v hasGLB e p) = Instance.
Proof.
  unfold consistent. intros Hc Hs He. rewrite Hs in Hc.
  destruct Hc as (Hld & Hl & Hh & ->).
  destruct e as [|ok| |]; simpl; unfold settle; [| |discriminate He|].
  - unfold render. rewrite Hl, Hh, Hld. destruct v; reflexivity.
  - rewrite Hld. exact Hs.
  - rewrite Hld. exact Hs.
Qed.

Lemma ready_run_no_escape v hasGLB es : forall p,
  consistent hasGLB p -> screen p = Instance -> no_escape es = true ->
  screen (run v hasGLB es p) = Instance.
Proof.
  induction es as [|e es IH]; intros p Hc Hs Hes; simpl; [exact Hs|].
  simpl in Hes. apply andb_true_iff in Hes. destruct Hes as [He Hes].
  apply IH; [apply step_consistent, Hc | | exact Hes].
  apply ready_step_no_escape; assumption.
Qed.

(** Without an exception a preview of an asset without a scene stays as its
    first render left it. *)
Lemma no_scene_step_no_escape v e p :
  load p = NoScene -> loadError p = false ->
  match e with Escapes => false | _ => true end = true ->
  step v true e (render v true p) = render v true p.
Proof.
  intros Hld Hl He. destruct p as [le he ld sc]. simpl in Hld, Hl. subst ld le.
  destruct e as [|ok| |]; [| |discriminate He|]; destruct he, v; reflexivity.
Qed.

Lemma no_scene_run_no_escape v es : forall p,
  load p = NoScene -> loadError p = false -> no_escape es = true ->
  run v true es (render v true p) = render v true p.
Proof.
  induction es as [|e es IH]; intros p Hld Hl Hes; simpl; [reflexivity|].
  simpl in Hes. apply andb_true_iff in Hes. destruct Hes as [He Hes].
  rewrite (no_scene_step_no_escape v e p Hld Hl He). apply IH; assumption.
Qed.

(** X12. A preview with [id in MAP] whose asset is loaded at its first
    render and has a scene shows the instance, in both variants, and goes on
    showing it through every render for as long as no exception leaves its
    subtree. When the asset has no scene, the safe-replacement variant shows
    nothing for as long, neither the instance nor the fallback, and the
    auto-centering variant shows the fallback. *)
Theorem loaded_preview_stays_ready (v : Variant) (es : list Event) :
  no_escape es = true ->
  screen (run v true es (mount v true Loaded)) = Instance /\
  screen (run SafeVariant true es (mount SafeVariant true NoScene)) = Blank /\
  screen (run AutoCenteringVariant true es (mount AutoCenteringVariant true NoScene))
  = Fallback.
Proof.
  intros Hes. split; [|split].
  - apply ready_run_no_escape; [apply render_consistent | | exact Hes].
    destruct v; reflexivity.
  - unfold mount. rewrite no_scene_run_no_escape; [reflexivity..|exact Hes].
  - unfold mount. rewrite no_scene_run_no_escape; [reflexivity..|exact Hes].
Qed.

Lemma loaded_preview_stays_ready_witness :
  screen (run SafeVariant true [Rerender; Settles false; Rerender; Settles true]
            (mount SafeVariant true Loaded)) = Instance /\
  screen (run SafeVariant true [Rerender; Settles false; Rerender; Settles true]
            (mount SafeVariant true NoScene)) = Blank /\
  screen (run AutoCenteringVariant true [Rerender; Settles false; Rerender; Settles true]
            (mount AutoCenteringVariant true NoScene)) = Fallback.
Proof. apply loaded_preview_stays_ready. reflexivity. Defined.

Lemma run_app v hasGLB es1 : forall es2 p,
  run v hasGLB (es1 ++ es2) p = run v hasGLB es2 (run v hasGLB es1 p).
Proof. induction es1 as [|e es1 IH]; intros es2 p; simpl; [reflexivity | apply IH]. Qed.

Lemma waiting_run es :
  only_rerender es = true ->
  run AutoCenteringVariant true es (mount AutoCenteringVariant true Pending)
  = mount AutoCenteringVariant true Pending.
Proof.
  induction es as [|e es IH]; simpl; [reflexivity|]. intros H.
  apply andb_true_iff in H. destruct H as [He Hes].
  destruct e; try discriminate He. exact (IH Hes).
Qed.

(** X13. In the auto-centering variant a preview whose load is pending shows
    the placeholder through every render, shows the instance as soon as the
    load resolves, and keeps showing it for as long as no exception leaves
    its subtree. *)
Theorem pending_preview_becomes_ready (es1 es2 : list Event) :
  only_rerender es1 = true -> no_escape es2 = true ->
  screen (run AutoCenteringVariant true es1 (mount AutoCenteringVariant true Pending))
  = Interim /\
  screen (run AutoCenteringVariant true (es1 ++ Settles true :: es2)
            (mount AutoCenteringVariant true Pending)) = Instance.
Proof.
  intros H1 H2. rewrite run_app, (waiting_run es1 H1). split; [reflexivity|].
  simpl. apply ready_run_no_escape; [apply render_consistent | reflexivity | exact H2].
Qed.

Lemma pending_preview_becomes_ready_witness :
  screen (run AutoCenteringVariant true [Rerender; Rerender]
            (mount AutoCenteringVariant true Pending)) = Interim /\
  screen (run AutoCenteringVariant true
            ([Rerender; Rerender] ++ Settles true :: [Rerender; Settles false])
            (mount AutoCenteringVariant true Pending)) = Instance.
Proof. apply pending_preview_becomes_ready; reflexivity. Defined.

Lemma loaded_step_same hasGLB e p :
  load p = Loaded ->
  step SafeVariant hasGLB e p = step AutoCenteringVariant hasGLB e p /\
  load (step SafeVariant hasGLB e p) = Loaded.
Proof.
  intros Hld. destruct p as [le he ld sc]. simpl in Hld. subst ld.
  destruct e as [|ok| |]; simpl.
  - unfold render. simpl. destruct le, hasGLB, he; simpl; split; reflexivity.
  - split; reflexivity.
  - destruct (renders_GLB hasGLB _); split; reflexivity.
  - split; reflexivity.
Qed.

Lemma loaded_run_same hasGLB es : forall p,
  load p = Loaded ->
  run SafeVariant hasGLB es p = run AutoCenteringVariant hasGLB es p.
Proof.
  induction es as [|e es IH]; intros p Hld; simpl; [reflexivity|].
  destruct (loaded_step_same hasGLB e p Hld) as [Heq Hld'].
  rewrite <- Heq. apply IH, Hld'.
Qed.

(** X14. With the asset loaded with a scene, or the load failed, at the
    first render, the two variants show the same thing through every
    sequence of events. (They differ while the load is pending, X10 and X13,
    and for an asset without a scene, X12.) *)
Theorem variants_agree_when_settled (hasGLB : bool) (l : LoadState)
    (es : list Event) :
  l = Loaded \/ l = Failed ->
  screen (run SafeVariant hasGLB es (mount SafeVariant hasGLB l))
  = screen (run AutoCenteringVariant hasGLB es (mount AutoCenteringVariant hasGLB l)).
Proof.
  intros [->| ->].
  - assert (Hm : mount SafeVariant hasGLB Loaded = mount AutoCenteringVariant hasGLB Loaded).
    { unfold mount, render. simpl. destruct hasGLB; reflexivity. }
    rewrite Hm. rewrite loaded_run_same; [reflexivity|].
    unfold mount, render. simpl. destruct hasGLB; reflexivity.
  - rewrite !failed_run; try apply render_consistent; try reflexivity;
      destruct hasGLB; reflexivity.
Qed.

Lemma variants_agree_when_settled_witness :
  screen (run SafeVariant true [Rerender; Escapes; Rerender] (mount SafeVariant true Loaded))
  = screen (run AutoCenteringVariant true [Rerender; Escapes; Rerender]
              (mount AutoCenteringVariant true Loaded)).
Proof. apply variants_agree_when_settled. left. reflexivity. Defined.

(** ** The GLB component and its [useMemo] *)

(** X23. What the GLB component does with a parsed asset is what its
    [useMemo] gives: for an asset with a scene (whose materials are in the
    store) [useMemo] gives an instance and the component returns it; for an
    asset without a scene [useMemo] gives [null] in the safe-replacement
    variant, and the component returns [null], and throws in the
    auto-centering variant, and the exception leaves the component. *)
Theorem GLB_follows_useMemo (v : Variant) (file : File)
    (gltf_scene : option Object3D) (w : World) :
  (forall scene, gltf_scene = Some scene -> stored (heap w) scene = true) ->
  GLB v (parsed_as gltf_scene) = GLB_of_cloned v (fst (useMemo v file gltf_scene w)) /\
  (fst (useMemo v file gltf_scene w) = None <-> gltf_scene = None).
Proof.
  intros Hst. destruct gltf_scene as [scene|].
  - pose proof (stored_well_formed _ _ (Hst scene eq_refl)) as Hwf. destruct v; simpl.
    + destruct (cloned_spec file scene w Hwf) as (inst & w' & Hrun & _).
      rewrite Hrun. simpl. split; [reflexivity|]. split; discriminate.
    + destruct (rebuilt_cloned_spec scene w Hwf) as (inst & w' & Hrun & _).
      rewrite Hrun. simpl. split; [reflexivity|]. split; discriminate.
  - destruct v; simpl; split; try reflexivity; split; reflexivity.
Qed.

Lemma GLB_follows_useMemo_witness :
  GLB SafeVariant (parsed_as (Some skinned))
  = GLB_of_cloned SafeVariant
      (fst (useMemo SafeVariant Character (Some skinned)
              {| heap := [painted]; nextId := 4 |})) /\
  (fst (useMemo SafeVariant Character (Some skinned)
          {| heap := [painted]; nextId := 4 |}) = None <-> Some skinned = None).
Proof.
  apply GLB_follows_useMemo. intros scene [= <-]. reflexivity.
Defined.

(** ** The prefetch *)

Lemma forEach_try_ignore throws paths : forall calls,
  forEach (fun path => try_ignore (useGLTF_preload throws path)) paths calls
  = (inr tt, calls ++ paths).
Proof.
  induction paths as [|x paths IH]; intros calls; simpl.
  - rewrite app_nil_r. reflexivity.
  - unfold try_ignore at 1, useGLTF_preload at 1.
    destruct (throws x); rewrite IH, <- app_assoc; reflexivity.
Qed.

Lemma entry_In table id p : entry table id = Some p -> In p (Object_values table).
Proof.
  unfold Object_values. induction table as [|[k q] table IH]; simpl; [discriminate|].
  destruct (String.eqb id k); [intros [= ->]; left; reflexivity | auto].
Qed.

(** X15. The prefetch at the end of a file never throws and calls
    [useGLTF.preload] once for every entry of the table, in the order of the
    table, whichever of these calls throw; so the path of every id with an
    entry is among the calls. *)
Theorem preload_reaches_every_path (throws : string -> bool)
    (table : list (string * string)) (calls : Calls) :
  preload_all throws table calls = (inr tt, calls ++ Object_values table) /\
  length (snd (preload_all throws table calls)) = length calls + length table /\
  forall id p, entry table id = Some p -> In p (snd (preload_all throws table calls)).
Proof.
  unfold preload_all. rewrite forEach_try_ignore. simpl.
  split; [reflexivity|]. split.
  - unfold Object_values. rewrite length_app, length_map. reflexivity.
  - intros id p He. apply in_or_app. right. eapply entry_In, He.
Qed.

(** Without the [try] inside the callback the first call that throws would
    end the loop. *)
Example preload_without_try_stops :
  forEach (useGLTF_preload (String.eqb "/b.glb")) ["/a.glb"; "/b.glb"; "/c.glb"] []
  = (inl (TypeError "preload"), ["/a.glb"; "/b.glb"]) /\
  preload_all (String.eqb "/b.glb") [("a", "/a.glb"); ("b", "/b.glb"); ("c", "/c.glb")] []
  = (inr tt, ["/a.glb"; "/b.glb"; "/c.glb"]).
Proof. split; reflexivity. Qed.

Lemma inherited_no_string k v :
  inherited Object_prototype k = Some v -> string_of v = None.
Proof.
  unfold Object_prototype, inherited.
  repeat (destruct (String.eqb k _); [intros [= <-]; reflexivity|]).
  discriminate.
Qed.

(** X16. Every path a preview hands to [useGLTF] has been prefetched: a
    string among the arguments of the [useGLTF] calls of a render is the
    path of an entry of the table, hence among the calls the prefetch
    made. *)
Theorem loaded_paths_are_prefetched (throws : string -> bool)
    (table : list (string * string)) (id : string) (p : Preview) (path : string) :
  In (JStr path) (useGLTF_calls table id p) ->
  entry table id = Some path /\ In path (snd (preload_all throws table [])).
Proof.
  unfold useGLTF_calls, js_get. intros H.
  destruct (renders_GLB (js_in id table) p); [|destruct H].
  destruct H as [H|[]].
  destruct (entry table id) as [q|] eqn:He.
  - injection H as ->. split; [reflexivity|].
    unfold preload_all. rewrite forEach_try_ignore. simpl.
    eapply entry_In, He.
  - exfalso. destruct (inherited Object_prototype id) as [v|] eqn:Hi; [|discriminate H].
    apply inherited_no_string in Hi. rewrite H in Hi. discriminate Hi.
Qed.

Lemma loaded_paths_are_prefetched_witness :
  entry WEAPON_GLB_MAP "t77" = Some "/Models/weapons/t77_handgun.glb" /\
  In "/Models/weapons/t77_handgun.glb"
    (snd (preload_all (fun _ => true) WEAPON_GLB_MAP [])).
Proof.
  apply (loaded_paths_are_prefetched (fun _ => true) WEAPON_GLB_MAP "t77"
           (unmounted Pending)).
  left. reflexivity.
Defined.

(** ** What the model components return *)

(** X17. Whatever the state, a model component returns the group that
    carries the ref and the scale with exactly one child on screen: the
    fallback when [id in MAP] is false (the id is neither a key of the table
    nor the name of a property the table inherits from [Object.prototype]),
    when [loadError] is set (safe-replacement variant), when the boundary has
    caught or while the GLB component is suspended, and the GLB component
    otherwise, for an inherited name as well as for a key. The fallback is
    the same element in all four situations. *)
Theorem model_shows_fallback_or_GLB (v : Variant) (id : string) (colors : Colors)
    (scale : JsVal) (loadError hasError suspended : bool) :
  shown hasError suspended (Jsx.CharacterModel3D v id colors scale loadError)
  = group true (Some scale)
      [ if negb (js_in id CHARACTER_GLB_MAP)
           || match v with SafeVariant => loadError | AutoCenteringVariant => false end
           || hasError || suspended
        then FallbackModel colors
        else GLBElement id match v with SafeVariant => true | AutoCenteringVariant => false end ] /\
  shown hasError suspended (Jsx.WeaponModel3D v id scale loadError)
  = group true (Some scale)
      [ if negb (js_in id WEAPON_GLB_MAP)
           || match v with SafeVariant => loadError | AutoCenteringVariant => false end
           || hasError || suspended
        then FallbackWeapon v scale
        else GLBElement id match v with SafeVariant => true | AutoCenteringVariant => false end ] /\
  forall table,
    js_in id table = false <->
    entry table id = None /\ inherited Object_prototype id = None.
Proof.
  split; [|split].
  - unfold Jsx.CharacterModel3D, model_element.
    destruct (js_in id CHARACTER_GLB_MAP), v, loadError, hasError, suspended; reflexivity.
  - unfold Jsx.WeaponModel3D, model_element.
    destruct (js_in id WEAPON_GLB_MAP), v, loadError, hasError, suspended; reflexivity.
  - intros table. unfold js_in.
    destruct (entry table id), (inherited Object_prototype id); split;
      try discriminate; try reflexivity; try (intros [H1 H2]; discriminate).
    intros _. split; reflexivity.
Qed.

(** X18. The fallback of a weapon lies under two groups that carry the
    [scale] prop, the one of [WeaponModel3D] and the one of [FallbackWeapon],
    while the loaded weapon lies under one; the fallback of a character lies
    under one, like the loaded character. *)
Theorem weapon_fallback_is_scaled_twice (v : Variant) (id : string) (colors : Colors)
    (scale : JsVal) (loadError hasError suspended : bool) :
  Forall (fun leaf => snd leaf = match fst leaf with
                                 | MeshLeaf => [scale; scale]
                                 | GLBLeaf => [scale]
                                 end)
    (leaf_scales [] (shown hasError suspended (Jsx.WeaponModel3D v id scale loadError))) /\
  Forall (fun leaf => snd leaf = [scale])
    (leaf_scales [] (shown hasError suspended
                       (Jsx.CharacterModel3D v id colors scale loadError))).
Proof.
  unfold Jsx.CharacterModel3D, Jsx.WeaponModel3D, model_element.
  destruct (js_in id CHARACTER_GLB_MAP), (js_in id WEAPON_GLB_MAP),
    v, loadError, hasError, suspended; split; simpl; repeat constructor.
Qed.

Lemma inherited_defined k v :
  inherited Object_prototype k = Some v -> v <> JUndefined.
Proof.
  unfold Object_prototype, inherited.
  repeat (destruct (String.eqb k _); [intros [= <-]; discriminate|]).
  discriminate.
Qed.

(** X19. The GLB component is mounted only under [id in MAP], so the lookup
    [MAP[id]] it hands to [useGLTF] is never [undefined]; and it is a string
    exactly when the table has an entry for the id, in which case it is the
    path of that entry. *)
Theorem useGLTF_argument_is_defined (table : list (string * string)) (id : string)
    (p : Preview) :
  Forall (fun arg => arg <> JUndefined /\
                     forall path, arg = JStr path <-> entry table id = Some path)
    (useGLTF_calls table id p).
Proof.
  unfold useGLTF_calls, renders_GLB, js_in, js_get.
  destruct (entry table id) as [q|] eqn:He.
  - destruct (true && negb (loadError p) && negb (hasError p)); constructor; [|constructor].
    split; [discriminate|]. intros path. split; intros H; congruence.
  - destruct (inherited Object_prototype id) as [v|] eqn:Hi.
    + destruct (true && negb (loadError p) && negb (hasError p));
        constructor; [|constructor].
      split; [eapply inherited_defined, Hi|].
      intros path. split; [|discriminate].
      intros ->. apply inherited_no_string in Hi. discriminate Hi.
    + constructor.
Qed.

(** ** Well-formed sources *)

(** X20. The rewrite of the safe-replacement variant keeps a well-formed
    material as it is but for its type and its side: when the colour is a
    [THREE.Color], the textures are [null] or truthy, roughness, metalness
    and opacity are present and the transparency flag is [false] or truthy,
    the new material has the same colour, textures, roughness, metalness,
    transparency and opacity, is a [MeshStandardMaterial] and is double
    sided. *)
Theorem rewrite_keeps_well_formed (m : Material) :
  is_color (m_color m) = true ->
  null_or_truthy (m_map m) = true -> null_or_truthy (m_normalMap m) = true ->
  not_nullish (m_roughness m) = true -> not_nullish (m_metalness m) = true ->
  false_or_truthy (m_transparent m) = true -> not_nullish (m_opacity m) = true ->
  SafeReplacement.replaceMat_value (Some m)
  = {| m_type := "MeshStandardMaterial"; m_color := m_color m; m_map := m_map m;
       m_normalMap := m_normalMap m; m_roughness := m_roughness m;
       m_metalness := m_metalness m; m_side := DoubleSide;
       m_transparent := m_transparent m; m_opacity := m_opacity m |}.
Proof.
  destruct m as [ty c mp nm r me sd tr op]. simpl.
  intros Hc Hmp Hnm Hr Hme Htr Hop.
  destruct c; try discriminate Hc.
  unfold SafeReplacement.replaceMat_value, SafeReplacement.replaceMat_parameters. simpl.
  unfold MeshStandardMaterial. simpl.
  rewrite (keep_null_or_truthy _ Hmp), (keep_null_or_truthy _ Hnm),
    (keep_false_or_truthy _ Htr), (keep_not_nullish _ _ _ Hr),
    (keep_not_nullish _ _ _ Hme), (keep_not_nullish _ _ _ Hop).
  reflexivity.
Qed.

Lemma rewrite_keeps_well_formed_witness :
  SafeReplacement.replaceMat_value (Some too_rough)
  = {| m_type := "MeshStandardMaterial"; m_color := m_color too_rough;
       m_map := m_map too_rough; m_normalMap := m_normalMap too_rough;
       m_roughness := m_roughness too_rough; m_metalness := m_metalness too_rough;
       m_side := DoubleSide; m_transparent := m_transparent too_rough;
       m_opacity := m_opacity too_rough |}.
Proof. apply rewrite_keeps_well_formed; reflexivity. Defined.

Lemma bare_mesh_gets_gray_witness :
  exists scene' h',
    SafeReplacement.sanitizeMaterials (rigged (SlotOne RNone)) [painted]
      = Normal scene' h' /\
    [painted] `prefix_of` h' /\
    tree_rel (fun d d' =>
      isMesh d = true -> material d = SlotOne RNone ->
      exists l' m', material d' = SlotOne (RMat l') /\
                    length [painted] <= l' /\ h' !! l' = Some m' /\
                    neutral_gray m' = true /\ valid_descriptor m' = true)
      (rigged (SlotOne RNone)) scene'.
Proof. apply bare_mesh_gets_gray. reflexivity. Defined.
